(** * MultiSetMap: an ordered map from keys to ordered sets of values

    Shallow embedding of [MultiSetMap.h].  The container owns one
    [std::map<Key, std::set<Value, SetCompare>, MapCompare>].  An ordered
    associative container is modelled by the sequence its iteration yields
    (a list, ascending for the comparator); an iterator is a position in that
    sequence, and [end()] is the absence of a position. *)

From Stdlib Require Import ZArith String Ascii Sorted.
From stdpp Require Import base list.

Local Open Scope list_scope.

(** ** The [Compare] named requirement: a strict weak ordering *)

Definition equiv {A} (comp : A -> A -> bool) (a b : A) : bool :=
  negb (comp a b) && negb (comp b a).

Class StrictWeakOrder {A} (comp : A -> A -> bool) : Prop := {
  comp_irrefl : forall a, comp a a = false;
  comp_trans : forall a b c, comp a b = true -> comp b c = true -> comp a c = true;
  equiv_trans : forall a b c,
    equiv comp a b = true -> equiv comp b c = true -> equiv comp a c = true
}.
Arguments comp_irrefl {A} comp {_} a.
Arguments comp_trans {A} comp {_} a b c _ _.
Arguments equiv_trans {A} comp {_} a b c _ _.

(** ** Ordered sequences: the part shared by [std::set] and [std::map] *)

Section Ordered.
Context {A : Type}.

(** First position whose element is not [below] the probe; in a sequence
    sorted for the comparator this is what [lower_bound] returns. *)
Fixpoint lower_bound (below : A -> bool) (l : list A) : nat :=
  match l with
  | [] => 0
  | x :: r => if below x then S (lower_bound below r) else 0
  end.

(** [insert] of a new element before position [i]. *)
Definition insert_before (i : nat) (x : A) (l : list A) : list A :=
  take i l ++ x :: drop i l.
End Ordered.

(** ** Types

    A [std::set<Value, SetCompare>] is the ascending sequence of its
    elements, an entry of the map a pair of a key and its set, and the member
    [map_] the ascending sequence of its entries. *)

Abbreviation ValueSet Value := (list Value) (only parsing).
Abbreviation Entry Key Value := (Key * list Value)%type (only parsing).
Abbreviation MultiSetMap Key Value := (list (Key * list Value)) (only parsing).

(** ** [std::set<Value, SetCompare>] *)

Section StdSet.
Context {Value : Type}.
Variable SetCompare : Value -> Value -> bool.
Local Abbreviation ValueSet := (ValueSet Value).

Definition set_lower_bound (v : Value) (s : ValueSet) : nat :=
  lower_bound (fun x => SetCompare x v) s.

(** [s.insert(v)]: nothing happens when an equivalent element is there. *)
Definition set_insert (v : Value) (s : ValueSet) : ValueSet :=
  let i := set_lower_bound v s in
  match s !! i with
  | Some x => if SetCompare v x then insert_before i v s else s
  | None => insert_before i v s
  end.

(** [s.erase(v)]: removes the element equivalent to [v], if any. *)
Definition set_erase (v : Value) (s : ValueSet) : ValueSet :=
  let i := set_lower_bound v s in
  match s !! i with
  | Some x => if SetCompare v x then s else delete i s
  | None => s
  end.

(** [s.empty()] *)
Definition set_empty (s : ValueSet) : bool :=
  match s with [] => true | _ :: _ => false end.
End StdSet.

(** ** The container *)

Section MultiSetMap.
Context {Key Value : Type}.
Variable MapCompare : Key -> Key -> bool.
Variable SetCompare : Value -> Value -> bool.

Local Abbreviation ValueSet := (ValueSet Value).
Local Abbreviation Entry := (Entry Key Value).
Local Abbreviation MultiSetMap := (MultiSetMap Key Value).

(** The member [map_] of a freshly constructed container. *)
Definition empty_map : MultiSetMap := [].

(** The static member [emptySet]. *)
Definition emptySet : ValueSet := [].

(** *** [std::map] primitives used by the class *)

Definition map_lower_bound (key : Key) (m : MultiSetMap) : nat :=
  lower_bound (fun e => MapCompare e.1 key) m.

(** [map_.find(key)]; [None] is [map_.end()]. *)
Definition map_find (key : Key) (m : MultiSetMap) : option nat :=
  let i := map_lower_bound key m in
  match m !! i with
  | Some e => if MapCompare key e.1 then None else Some i
  | None => None
  end.

(** [map_[key]]: the position of the entry for [key], which is created
    with a default-constructed set when no equivalent key is there. *)
Definition map_subscript (key : Key) (m : MultiSetMap) : nat * MultiSetMap :=
  let i := map_lower_bound key m in
  match m !! i with
  | Some e =>
      if MapCompare key e.1 then (i, insert_before i (key, []) m) else (i, m)
  | None => (i, insert_before i (key, []) m)
  end.

(** [map_.erase(key)] *)
Definition map_erase (key : Key) (m : MultiSetMap) : MultiSetMap :=
  match map_find key m with
  | Some it => delete it m
  | None => m
  end.

(** *** Member functions *)

(** [void add(const Key& key, const Value& value)] *)
Definition add (key : Key) (value : Value) (m : MultiSetMap) : MultiSetMap :=
  let '(it, m') := map_subscript key m in
  alter (fun e => (e.1, set_insert SetCompare value e.2)) it m'.

(** [void remove(const Key& key)] *)
Definition remove (key : Key) (m : MultiSetMap) : MultiSetMap :=
  map_erase key m.

(** [void remove(const Key& key, const Value& value)] *)
Definition remove_value (key : Key) (value : Value) (m : MultiSetMap)
  : MultiSetMap :=
  match map_find key m with
  | None => m
  | Some it =>
      let m' := alter (fun e => (e.1, set_erase SetCompare value e.2)) it m in
      match m' !! it with
      | Some e => if set_empty e.2 then delete it m' else m'
      | None => m'
      end
  end.

(** [const std::set<Value, SetCompare>& find(const Key& key) const] *)
Definition find (key : Key) (m : MultiSetMap) : ValueSet :=
  match map_find key m with
  | Some it =>
      match m !! it with
      | Some e => e.2
      | None => emptySet
      end
  | None => emptySet
  end.

(** *** [findByPrefix] *)

Section Prefix.
(** [k.starts_with(prefix)] *)
Variable starts_with : Key -> Key -> bool.
(** [std::is_same<Key, std::string>::value] *)
Variable Key_is_string : bool.
(** [std::transform] of a key with [std::tolower], element by element. *)
Variable to_lower : Key -> Key.

(** The [while] loop of the case-sensitive branch, run on the range
    from the iterator to [end()]. *)
Fixpoint scan_while (prefix : Key) (range : list Entry) : list Entry :=
  match range with
  | [] => []
  | e :: rest =>
      if starts_with e.1 prefix then (e.1, e.2) :: scan_while prefix rest
      else []
  end.

(** The [for] loop of the case-insensitive branch, from [begin()]. *)
Fixpoint scan_all (prefix : Key) (range : list Entry) : list Entry :=
  match range with
  | [] => []
  | e :: rest =>
      let keyLower := to_lower e.1 in
      let prefixLower := to_lower prefix in
      if starts_with keyLower prefixLower
      then (e.1, e.2) :: scan_all prefix rest
      else scan_all prefix rest
  end.

Definition findByPrefix (prefix : Key) (caseSensitive : bool)
    (m : MultiSetMap) : list Entry :=
  if caseSensitive then
    scan_while prefix (drop (map_lower_bound prefix m) m)
  else if Key_is_string then
    scan_all prefix m
  else [].
End Prefix.

(** *** Sequences of mutating calls *)

Inductive Op : Type :=
| Add (key : Key) (value : Value)
| Remove (key : Key)
| RemoveValue (key : Key) (value : Value).

Definition step (m : MultiSetMap) (o : Op) : MultiSetMap :=
  match o with
  | Add k v => add k v m
  | Remove k => remove k m
  | RemoveValue k v => remove_value k v m
  end.

(** The states after each call of a sequence, in order. *)
Fixpoint trace (ops : list Op) (m : MultiSetMap) : list MultiSetMap :=
  match ops with
  | [] => []
  | o :: rest => step m o :: trace rest (step m o)
  end.

(** The state after the whole sequence. *)
Definition run (ops : list Op) (m : MultiSetMap) : MultiSetMap :=
  fold_left step ops m.

(** The states a container can be in. *)
Inductive Reachable : MultiSetMap -> Prop :=
| Reachable_empty : Reachable empty_map
| Reachable_step m o : Reachable m -> Reachable (step m o).

End MultiSetMap.

(** ** Default template arguments

    [template <typename Key, typename Value,
               typename MapCompare = std::less<Key>,
               typename SetCompare = std::less<Key>>]

    Both defaults are [std::less<Key>], whose call operator takes two
    [const Key&].  Inside a [std::set<Value, std::less<Key>>] it is called on
    values, each of which is first converted to [Key]. *)

Section Defaults.
Context {Key Value : Type}.
(** [operator<] on [Key] *)
Variable Key_less : Key -> Key -> bool.
(** The implicit conversion from [Value] to [Key]. *)
Variable Value_to_Key : Value -> Key.

Definition default_MapCompare : Key -> Key -> bool := Key_less.

Definition default_SetCompare : Value -> Value -> bool :=
  fun a b => Key_less (Value_to_Key a) (Value_to_Key b).
End Defaults.

(** ** Instance: [Key = std::string]

    [std::less<std::string>] compares lexicographically, characters as
    [unsigned char]; [starts_with] compares the leading characters;
    [std::tolower] is taken in the default "C" locale, where it maps 'A'..'Z'
    to 'a'..'z' and leaves every other character alone. *)

Module StdString.

Definition less : string -> string -> bool := String.ltb.

Definition starts_with (s prefix : string) : bool := String.prefix prefix s.

Definition tolower (c : ascii) : ascii :=
  let n := N_of_ascii c in
  if ((65 <=? n) && (n <=? 90))%N then ascii_of_N (n + 32) else c.

Fixpoint transform_tolower (s : string) : string :=
  match s with
  | EmptyString => EmptyString
  | String c rest => String (tolower c) (transform_tolower rest)
  end.

(** [findByPrefix] of [MultiSetMap<std::string, Value, MapCompare>], for
    any key comparator given as the third template argument. *)
Definition findByPrefix_for {Value : Type}
    (MapCompare : string -> string -> bool)
  : string -> bool -> MultiSetMap string Value -> list (Entry string Value) :=
  findByPrefix MapCompare starts_with true transform_tolower.

(** [findByPrefix] of [MultiSetMap<std::string, Value>], where
    [std::is_same<Key, std::string>::value] is [true]. *)
Definition findByPrefix {Value : Type}
  : string -> bool -> MultiSetMap string Value -> list (Entry string Value) :=
  findByPrefix less starts_with true transform_tolower.

(** [std::greater<std::string>] *)
Definition greater (a b : string) : bool := less b a.

End StdString.

(** ** Case folding, as the specification words it

    Folding to lower case replaces each of the letters A to Z by the
    lower-case letter at the same place of the alphabet and keeps every
    other character.  It is written here from the two alphabets, and not
    from character codes as [std::tolower] is above. *)

Module CaseFold.

Definition upper_case : string := "ABCDEFGHIJKLMNOPQRSTUVWXYZ"%string.

Definition lower_case : string := "abcdefghijklmnopqrstuvwxyz"%string.

Fixpoint fold_letter (uppers lowers : string) (c : ascii) : ascii :=
  match uppers, lowers with
  | String u uppers', String l lowers' =>
      if Ascii.eqb c u then l else fold_letter uppers' lowers' c
  | _, _ => c
  end.

Definition fold_char (c : ascii) : ascii :=
  fold_letter upper_case lower_case c.

Fixpoint fold (s : string) : string :=
  match s with
  | EmptyString => EmptyString
  | String c rest => String (fold_char c) (fold rest)
  end.

(** A key matches a prefix when, both folded, it starts with it. *)
Definition matches (prefix key : string) : bool :=
  String.prefix (fold prefix) (fold key).

End CaseFold.

(** ** Predicates on container states *)

Section StatePredicates.
Context {Key Value : Type}.
Variable MapCompare : Key -> Key -> bool.
Variable SetCompare : Value -> Value -> bool.

(** Invariant I1: no entry holds an empty set. *)
Definition no_empty_entries (m : MultiSetMap Key Value) : Prop :=
  Forall (fun e => e.2 <> []) m.

(** Entries come in ascending key order. *)
Definition keys_ascending (l : list (Entry Key Value)) : Prop :=
  StronglySorted (fun e1 e2 => MapCompare e1.1 e2.1 = true) l.

(** The elements of a set come in ascending order. *)
Definition values_ascending (s : ValueSet Value) : Prop :=
  StronglySorted (fun a b => SetCompare a b = true) s.

(** No entry has a key equivalent to [key]. *)
Definition key_absent (key : Key) (m : MultiSetMap Key Value) : Prop :=
  Forall (fun e => equiv MapCompare key e.1 = false) m.

(** No element of the set is equivalent to [value]. *)
Definition value_absent (value : Value) (s : ValueSet Value) : Prop :=
  Forall (fun x => equiv SetCompare value x = false) s.
End StatePredicates.

(** ** Instance: [MultiSetMap<unsigned char, int>]

    Keys are [unsigned char], values are [int], and both comparators are
    left to their defaults.  An [int] becomes an [unsigned char] by reduction
    modulo 256. *)

Module UCharInt.

Definition uchar_less (a b : Z) : bool := (a <? b)%Z.

Definition int_to_uchar (v : Z) : Z := (v mod 256)%Z.

Definition MapCompare : Z -> Z -> bool := default_MapCompare uchar_less.

Definition SetCompare : Z -> Z -> bool :=
  default_SetCompare uchar_less int_to_uchar.

(** The natural ascending order of [int]. *)
Definition int_less (a b : Z) : bool := (a <? b)%Z.

End UCharInt.

(** ** Instance: a key type that is not [std::string]

    A sequence of code points with [starts_with], ordered
    lexicographically; [std::is_same<Key, std::string>::value] is [false]
    for it. *)

Module CodePoints.

Fixpoint less (a b : list nat) : bool :=
  match a, b with
  | _, [] => false
  | [], _ :: _ => true
  | x :: a', y :: b' => (x <? y) || ((x =? y) && less a' b')
  end.

Fixpoint starts_with (k prefix : list nat) : bool :=
  match prefix, k with
  | [], _ => true
  | _ :: _, [] => false
  | y :: prefix', x :: k' => (x =? y) && starts_with k' prefix'
  end.

Definition transform_tolower (k : list nat) : list nat :=
  map (fun c => if (65 <=? c) && (c <=? 90) then c + 32 else c) k.

Definition findByPrefix {Value : Type}
  : list nat -> bool -> MultiSetMap (list nat) Value
    -> list (Entry (list nat) Value) :=
  findByPrefix less starts_with false transform_tolower.

End CodePoints.

(** ** Sample containers *)

Module Sample.

Definition words : list (@Op string string) :=
  [Add "banana" "yellow"; Add "apply" "verb"; Add "apple" "red";
   Add "application" "noun"; Add "apple" "green"]%string.

Definition word_map : MultiSetMap string string :=
  run StdString.less StdString.less words empty_map.

Definition mixed_case : list (@Op string string) :=
  [Add "apply" "3"; Add "Apple" "1"; Add "banana" "4";
   Add "APPLICATION" "2"]%string.

Definition mixed_case_map : MultiSetMap string string :=
  run StdString.less StdString.less mixed_case empty_map.

(** The same calls on a [MultiSetMap<std::string, std::string,
    std::greater<std::string>, std::less<std::string>>]. *)
Definition mixed_case_descending : MultiSetMap string string :=
  run StdString.greater StdString.less mixed_case empty_map.

Definition fruit : list (@Op string string) :=
  [Add "fruit" "apple"; Add "fruit" "banana";
   RemoveValue "fruit" "apple"]%string.

Definition fruit_map : MultiSetMap string string :=
  run StdString.less StdString.less fruit empty_map.

End Sample.

(** * Properties *)

(** ** Consequences of the strict weak ordering requirements *)

Section StrictWeakOrderFacts.
Context {A : Type} (comp : A -> A -> bool) `{!StrictWeakOrder comp}.

Lemma equiv_refl a : equiv comp a a = true.
Proof. unfold equiv. by rewrite (comp_irrefl comp). Qed.

Lemma equiv_sym a b : equiv comp a b = equiv comp b a.
Proof. unfold equiv. apply andb_comm. Qed.

Lemma comp_asym a b : comp a b = true -> comp b a = false.
Proof.
  intros Hab. destruct (comp b a) eqn:Hba; [|done].
  by rewrite <- (comp_irrefl comp a), (comp_trans comp a b a).
Qed.

Lemma comp_not_equiv a b : comp a b = true -> equiv comp a b = false.
Proof. intros Hab. unfold equiv. by rewrite Hab. Qed.

Lemma comp_equiv_r a b c :
  comp a b = true -> equiv comp b c = true -> comp a c = true.
Proof.
  intros Hab Hbc. destruct (comp a c) eqn:Hac; [done|].
  destruct (comp c a) eqn:Hca.
  - pose proof (comp_trans comp c a b Hca Hab) as Hcb.
    unfold equiv in Hbc. rewrite Hcb, andb_false_r in Hbc. done.
  - assert (equiv comp a c = true) as Heq by (unfold equiv; by rewrite Hac, Hca).
    rewrite (equiv_sym b c) in Hbc.
    pose proof (equiv_trans comp a c b Heq Hbc) as Hab'.
    by rewrite comp_not_equiv in Hab'.
Qed.

Lemma comp_equiv_l a b c :
  equiv comp a b = true -> comp b c = true -> comp a c = true.
Proof.
  intros Hab Hbc. destruct (comp a c) eqn:Hac; [done|].
  destruct (comp c a) eqn:Hca.
  - pose proof (comp_trans comp b c a Hbc Hca) as Hba.
    unfold equiv in Hab. rewrite Hba, andb_false_r in Hab. done.
  - assert (equiv comp c a = true) as Heq by (unfold equiv; by rewrite Hac, Hca).
    pose proof (equiv_trans comp c a b Heq Hab) as Hcb.
    rewrite equiv_sym in Hcb. by rewrite comp_not_equiv in Hcb.
Qed.
End StrictWeakOrderFacts.

(** ** The operations as recursions over the sequence *)

Section SetEquations.
Context {Value : Type} (SetCompare : Value -> Value -> bool).

Lemma set_insert_nil v : set_insert SetCompare v [] = [v].
Proof. reflexivity. Qed.

Lemma set_insert_cons v x s :
  set_insert SetCompare v (x :: s) =
    if SetCompare x v then x :: set_insert SetCompare v s
    else if SetCompare v x then v :: x :: s else x :: s.
Proof.
  unfold set_insert, set_lower_bound, insert_before. cbn [lower_bound].
  destruct (SetCompare x v); [|done].
  set (i := lower_bound _ s). change ((x :: s) !! S i) with (s !! i).
  destruct (s !! i) as [y|]; [by destruct (SetCompare v y)|done].
Qed.

Lemma set_erase_nil v : set_erase SetCompare v [] = [].
Proof. reflexivity. Qed.

Lemma set_erase_cons v x s :
  set_erase SetCompare v (x :: s) =
    if SetCompare x v then x :: set_erase SetCompare v s
    else if SetCompare v x then x :: s else s.
Proof.
  unfold set_erase, set_lower_bound. cbn [lower_bound].
  destruct (SetCompare x v); [|done].
  set (i := lower_bound _ s). change ((x :: s) !! S i) with (s !! i).
  destruct (s !! i) as [y|]; [by destruct (SetCompare v y)|done].
Qed.

Lemma set_insert_nonempty v s : set_insert SetCompare v s <> [].
Proof.
  destruct s as [|x s]; [done|]. rewrite set_insert_cons.
  by destruct (SetCompare x v), (SetCompare v x).
Qed.
End SetEquations.

Section MapEquations.
Context {Key Value : Type}.
Variable MapCompare : Key -> Key -> bool.
Variable SetCompare : Value -> Value -> bool.
Implicit Types (m : MultiSetMap Key Value) (e : Entry Key Value).

Lemma map_find_cons key e m :
  map_find MapCompare key (e :: m) =
    if MapCompare e.1 key then S <$> map_find MapCompare key m
    else if MapCompare key e.1 then None else Some 0.
Proof.
  unfold map_find, map_lower_bound. cbn [lower_bound].
  destruct (MapCompare e.1 key); [|done].
  set (i := lower_bound (fun e0 => MapCompare e0.1 key) m).
  change ((e :: m) !! S i) with (m !! i).
  destruct (m !! i) as [y|]; [by destruct (MapCompare key y.1)|done].
Qed.

(** A position that [map_find] returns holds an entry. *)
Lemma map_find_Some_lookup key m it :
  map_find MapCompare key m = Some it -> is_Some (m !! it).
Proof.
  unfold map_find. destruct (m !! _) as [e|] eqn:He; [|done].
  destruct (MapCompare key e.1); [done|]. intros [= <-]. by eexists.
Qed.

Lemma find_cons key e m :
  find MapCompare key (e :: m) =
    if MapCompare e.1 key then find MapCompare key m
    else if MapCompare key e.1 then emptySet else e.2.
Proof.
  unfold find. rewrite map_find_cons.
  destruct (MapCompare e.1 key).
  - by destruct (map_find MapCompare key m).
  - by destruct (MapCompare key e.1).
Qed.

Lemma add_nil key value :
  add MapCompare SetCompare key value [] = [(key, [value])].
Proof. reflexivity. Qed.

Lemma add_cons key value e m :
  add MapCompare SetCompare key value (e :: m) =
    if MapCompare e.1 key then e :: add MapCompare SetCompare key value m
    else if MapCompare key e.1 then (key, [value]) :: e :: m
    else (e.1, set_insert SetCompare value e.2) :: m.
Proof.
  unfold add, map_subscript, map_lower_bound, insert_before.
  cbn [lower_bound].
  destruct (MapCompare e.1 key).
  - set (i := lower_bound (fun e0 => MapCompare e0.1 key) m).
    change ((e :: m) !! S i) with (m !! i).
    destruct (m !! i) as [y|]; [by destruct (MapCompare key y.1)|done].
  - cbn [lookup list_lookup]. by destruct (MapCompare key e.1).
Qed.

Lemma remove_cons key e m :
  remove MapCompare key (e :: m) =
    if MapCompare e.1 key then e :: remove MapCompare key m
    else if MapCompare key e.1 then e :: m else m.
Proof.
  unfold remove, map_erase. rewrite map_find_cons.
  destruct (MapCompare e.1 key).
  - by destruct (map_find MapCompare key m).
  - by destruct (MapCompare key e.1).
Qed.

Lemma remove_value_cons key value e m :
  remove_value MapCompare SetCompare key value (e :: m) =
    if MapCompare e.1 key
    then e :: remove_value MapCompare SetCompare key value m
    else if MapCompare key e.1 then e :: m
    else if set_empty (set_erase SetCompare value e.2) then m
    else (e.1, set_erase SetCompare value e.2) :: m.
Proof.
  unfold remove_value. rewrite map_find_cons.
  destruct (MapCompare e.1 key).
  - destruct (map_find MapCompare key m) as [it|]; simpl; [|done].
    destruct (_ !! it) as [y|]; [|done]. by destruct (set_empty y.2).
  - destruct (MapCompare key e.1); [done|]. simpl.
    by destruct (set_empty _).
Qed.
End MapEquations.

(** ** Invariants of reachable states *)

Section Invariants.
Context {Key Value : Type}.
Variable MapCompare : Key -> Key -> bool.
Variable SetCompare : Value -> Value -> bool.
Implicit Types (m : MultiSetMap Key Value) (e : Entry Key Value).

Local Abbreviation add := (add MapCompare SetCompare).
Local Abbreviation remove := (remove MapCompare).
Local Abbreviation remove_value := (remove_value MapCompare SetCompare).
Local Abbreviation step := (step MapCompare SetCompare).
Local Abbreviation trace := (trace MapCompare SetCompare).
Local Abbreviation run := (run MapCompare SetCompare).
Local Abbreviation Reachable := (Reachable MapCompare SetCompare).

(** A property that holds of the empty container and survives every
    call holds of every reachable state, and all along every trace. *)
Lemma Reachable_ind_step (P : MultiSetMap Key Value -> Prop) :
  P empty_map -> (forall m o, P m -> P (step m o)) ->
  forall m, Reachable m -> P m.
Proof. intros H0 Hstep m Hm. induction Hm; auto. Qed.

Lemma trace_Forall (P : MultiSetMap Key Value -> Prop) :
  (forall m o, P m -> P (step m o)) ->
  forall ops m, P m -> Forall P (trace ops m).
Proof.
  intros Hstep ops. induction ops as [|o ops IH]; intros m Hm; simpl.
  - constructor.
  - constructor; auto.
Qed.

Lemma Reachable_trace ops m : Reachable m -> Forall Reachable (trace ops m).
Proof. apply trace_Forall. intros ? ? ?. by constructor. Qed.

Lemma Reachable_run ops m : Reachable m -> Reachable (run ops m).
Proof.
  unfold run. revert m.
  induction ops as [|o ops IH]; intros m Hm; simpl; [done|].
  apply IH. by constructor.
Qed.

(** *** I1: no empty entries *)

Lemma add_no_empty key value m :
  no_empty_entries m -> no_empty_entries (add key value m).
Proof.
  unfold no_empty_entries.
  induction m as [|e m IH]; intros Hm.
  - rewrite add_nil. by repeat constructor.
  - inversion_clear Hm as [|? ? He Hm']. rewrite add_cons.
    destruct (MapCompare e.1 key); [constructor; auto|].
    destruct (MapCompare key e.1); repeat constructor; auto.
    apply set_insert_nonempty.
Qed.

Lemma remove_no_empty key m :
  no_empty_entries m -> no_empty_entries (remove key m).
Proof.
  unfold no_empty_entries.
  induction m as [|e m IH]; intros Hm; [done|].
  inversion Hm as [|? ? He Hm']; subst. rewrite remove_cons.
  destruct (MapCompare e.1 key); [constructor; auto|].
  by destruct (MapCompare key e.1).
Qed.

Lemma set_empty_false (s : ValueSet Value) : set_empty s = false -> s <> [].
Proof. by destruct s. Qed.

Lemma remove_value_no_empty key value m :
  no_empty_entries m -> no_empty_entries (remove_value key value m).
Proof.
  unfold no_empty_entries.
  induction m as [|e m IH]; intros Hm; [done|].
  inversion Hm as [|? ? He Hm']; subst. rewrite remove_value_cons.
  destruct (MapCompare e.1 key); [constructor; auto|].
  destruct (MapCompare key e.1); [done|].
  destruct (set_empty _) eqn:Hempty; [done|].
  constructor; [|done]. by apply set_empty_false.
Qed.

Lemma step_no_empty m o : no_empty_entries m -> no_empty_entries (step m o).
Proof.
  destruct o; simpl;
    auto using add_no_empty, remove_no_empty, remove_value_no_empty.
Qed.

Lemma Reachable_no_empty m : Reachable m -> no_empty_entries m.
Proof.
  apply Reachable_ind_step; [constructor | apply step_no_empty].
Qed.

(** What a lookup reaches is an entry, so it is not empty either. *)
Lemma find_nonempty key m :
  no_empty_entries m -> map_find MapCompare key m <> None ->
  find MapCompare key m <> emptySet.
Proof.
  unfold no_empty_entries.
  induction m as [|e m IH]; intros Hm; [done|].
  inversion Hm as [|? ? He Hm']; subst. rewrite map_find_cons, find_cons.
  destruct (MapCompare e.1 key).
  - intros Hfound. apply IH; [done|].
    by destruct (map_find MapCompare key m).
  - by destruct (MapCompare key e.1).
Qed.

Lemma delete_alter (f : Entry Key Value -> Entry Key Value) it m :
  delete it (alter f it m) = delete it m.
Proof.
  revert it. induction m as [|e m IH]; intros [|it]; simpl; try done.
  by rewrite IH.
Qed.

(** [remove(key, value)] erases the whole entry when the set drains. *)
Lemma remove_value_drains key value m it e :
  map_find MapCompare key m = Some it -> m !! it = Some e ->
  set_erase SetCompare value e.2 = [] ->
  remove_value key value m = delete it m.
Proof.
  intros Hfind Hit Hdrained. unfold remove_value.
  rewrite Hfind. cbv zeta.
  rewrite list_lookup_alter_eq, Hit. simpl. rewrite Hdrained. simpl.
  apply delete_alter.
Qed.

Lemma map_subscript_fst key m :
  (map_subscript MapCompare key m).1 = map_lower_bound MapCompare key m.
Proof.
  unfold map_subscript. destruct (m !! _) as [e|]; [|done].
  by destruct (MapCompare key e.1).
Qed.

(** [add] leaves the entry it touches non-empty. *)
Lemma add_touched_nonempty key value m :
  exists e, add key value m !! (map_subscript MapCompare key m).1 = Some e /\
            e.2 <> [].
Proof.
  rewrite map_subscript_fst. unfold map_lower_bound.
  induction m as [|e m IH].
  - rewrite add_nil. by eexists.
  - rewrite add_cons. cbn [lower_bound].
    destruct (MapCompare e.1 key); [done|].
    destruct (MapCompare key e.1); eexists; (split; [reflexivity|]); [done|].
    apply set_insert_nonempty.
Qed.

(** C1. Starting from the empty container, after each call of any
    sequence of [add(key, value)], [remove(key)] and [remove(key, value)],
    no entry of the container holds an empty set, and so no lookup that
    reaches an entry returns one: [remove(key, value)] erases the entry whose
    set it drains, and [add] leaves the entry it touches non-empty. *)
Theorem no_empty_entries_after_each_operation (ops : list Op) :
  Forall (fun m => no_empty_entries m /\
                   forall key, map_find MapCompare key m <> None ->
                               find MapCompare key m <> emptySet)
    (trace ops empty_map) /\
  (forall key value m it e,
     map_find MapCompare key m = Some it -> m !! it = Some e ->
     set_erase SetCompare value e.2 = [] ->
     remove_value key value m = delete it m) /\
  (forall key value m,
     exists e, add key value m !! (map_subscript MapCompare key m).1 = Some e /\
               e.2 <> []).
Proof.
  split; [|split].
  - eapply Forall_impl.
    + apply (trace_Forall no_empty_entries); [apply step_no_empty|constructor].
    + intros m Hm. split; [done|]. intros key. by apply find_nonempty.
  - apply remove_value_drains.
  - apply add_touched_nonempty.
Qed.

End Invariants.

(** ** Ascending order is kept by every call *)

Section Ascending.
Context {Key Value : Type}.
Variable MapCompare : Key -> Key -> bool.
Variable SetCompare : Value -> Value -> bool.
Context `{!StrictWeakOrder MapCompare} `{!StrictWeakOrder SetCompare}.
Implicit Types (m : MultiSetMap Key Value) (e : Entry Key Value).
Implicit Types (s : ValueSet Value).

Local Abbreviation add := (add MapCompare SetCompare).
Local Abbreviation remove := (remove MapCompare).
Local Abbreviation remove_value := (remove_value MapCompare SetCompare).
Local Abbreviation step := (step MapCompare SetCompare).
Local Abbreviation Reachable := (Reachable MapCompare SetCompare).
Local Abbreviation keys_ascending := (keys_ascending MapCompare).
Local Abbreviation values_ascending := (values_ascending SetCompare).

(** The keys after a call are keys from before, or the key added. *)
Lemma add_keys_Forall (P : Key -> Prop) key value m :
  P key -> Forall (fun e => P e.1) m -> Forall (fun e => P e.1) (add key value m).
Proof.
  intros Hk. induction m as [|e m IH]; intros Hm.
  - rewrite add_nil. by repeat constructor.
  - inversion_clear Hm. rewrite add_cons.
    destruct (MapCompare e.1 key); [constructor; auto|].
    destruct (MapCompare key e.1); repeat constructor; auto.
Qed.

Lemma remove_Forall (P : Entry Key Value -> Prop) key m :
  Forall P m -> Forall P (remove key m).
Proof.
  induction m as [|e m IH]; intros Hm; [done|].
  inversion Hm; subst. rewrite remove_cons.
  destruct (MapCompare e.1 key); [constructor; auto|].
  by destruct (MapCompare key e.1).
Qed.

Lemma remove_value_keys_Forall (P : Key -> Prop) key value m :
  Forall (fun e => P e.1) m -> Forall (fun e => P e.1) (remove_value key value m).
Proof.
  induction m as [|e m IH]; intros Hm; [done|].
  inversion Hm; subst. rewrite remove_value_cons.
  destruct (MapCompare e.1 key); [constructor; auto|].
  destruct (MapCompare key e.1); [done|].
  destruct (set_empty _); [done|]. by constructor.
Qed.

Lemma add_keys_ascending key value m :
  keys_ascending m -> keys_ascending (add key value m).
Proof.
  unfold keys_ascending.
  induction m as [|e m IH]; intros Hm.
  - rewrite add_nil. repeat constructor.
  - inversion Hm as [|? ? Hm' He]; subst. rewrite add_cons.
    destruct (MapCompare e.1 key) eqn:Hek.
    { constructor; [auto|].
      by apply (add_keys_Forall (fun k => MapCompare e.1 k = true)). }
    destruct (MapCompare key e.1) eqn:Hke.
    + constructor; [done|]. constructor; [done|].
      eapply Forall_impl; [exact He|]. simpl. intros e' He'.
      by apply (comp_trans MapCompare key e.1 e'.1).
    + by constructor.
Qed.

Lemma remove_keys_ascending key m :
  keys_ascending m -> keys_ascending (remove key m).
Proof.
  unfold keys_ascending.
  induction m as [|e m IH]; intros Hm; [done|].
  inversion Hm as [|? ? Hm' He]; subst. rewrite remove_cons.
  destruct (MapCompare e.1 key).
  - constructor; [auto|]. by apply remove_Forall.
  - by destruct (MapCompare key e.1).
Qed.

Lemma remove_value_keys_ascending key value m :
  keys_ascending m -> keys_ascending (remove_value key value m).
Proof.
  unfold keys_ascending.
  induction m as [|e m IH]; intros Hm; [done|].
  inversion Hm as [|? ? Hm' He]; subst. rewrite remove_value_cons.
  destruct (MapCompare e.1 key).
  - constructor; [auto|].
    by apply (remove_value_keys_Forall (fun k => MapCompare e.1 k = true)).
  - destruct (MapCompare key e.1); [done|].
    destruct (set_empty _); [done|]. by constructor.
Qed.

Lemma Reachable_keys_ascending m : Reachable m -> keys_ascending m.
Proof.
  apply Reachable_ind_step; [constructor|].
  intros m' [k v|k|k v] Hm'; simpl;
    auto using add_keys_ascending, remove_keys_ascending,
      remove_value_keys_ascending.
Qed.

(** The same for the elements of each set. *)
Lemma set_insert_Forall (P : Value -> Prop) value s :
  P value -> Forall P s -> Forall P (set_insert SetCompare value s).
Proof.
  intros Hv. induction s as [|x s IH]; intros Hs.
  - rewrite set_insert_nil. by repeat constructor.
  - inversion_clear Hs. rewrite set_insert_cons.
    destruct (SetCompare x value); [constructor; auto|].
    destruct (SetCompare value x); repeat constructor; auto.
Qed.

Lemma set_erase_Forall (P : Value -> Prop) value s :
  Forall P s -> Forall P (set_erase SetCompare value s).
Proof.
  induction s as [|x s IH]; intros Hs; [done|].
  inversion Hs; subst. rewrite set_erase_cons.
  destruct (SetCompare x value); [constructor; auto|].
  by destruct (SetCompare value x).
Qed.

Lemma set_insert_ascending value s :
  values_ascending s -> values_ascending (set_insert SetCompare value s).
Proof.
  unfold values_ascending.
  induction s as [|x s IH]; intros Hs.
  - rewrite set_insert_nil. repeat constructor.
  - inversion Hs as [|? ? Hs' Hx]; subst. rewrite set_insert_cons.
    destruct (SetCompare x value) eqn:Hxv.
    { constructor; [auto|]. by apply set_insert_Forall. }
    destruct (SetCompare value x) eqn:Hvx; [|done].
    constructor; [done|]. constructor; [done|].
    eapply Forall_impl; [exact Hx|]. simpl. intros y Hy.
    by apply (comp_trans SetCompare value x y).
Qed.

Lemma set_erase_ascending value s :
  values_ascending s -> values_ascending (set_erase SetCompare value s).
Proof.
  unfold values_ascending.
  induction s as [|x s IH]; intros Hs; [done|].
  inversion Hs as [|? ? Hs' Hx]; subst. rewrite set_erase_cons.
  destruct (SetCompare x value).
  - constructor; [auto|]. by apply set_erase_Forall.
  - by destruct (SetCompare value x).
Qed.

Lemma add_values_ascending key value m :
  Forall (fun e => values_ascending e.2) m ->
  Forall (fun e => values_ascending e.2) (add key value m).
Proof.
  induction m as [|e m IH]; intros Hm.
  - rewrite add_nil. repeat constructor.
  - inversion_clear Hm. rewrite add_cons.
    destruct (MapCompare e.1 key); [constructor; auto|].
    destruct (MapCompare key e.1); repeat constructor; auto.
    by apply set_insert_ascending.
Qed.

Lemma remove_value_values_ascending key value m :
  Forall (fun e => values_ascending e.2) m ->
  Forall (fun e => values_ascending e.2) (remove_value key value m).
Proof.
  induction m as [|e m IH]; intros Hm; [done|].
  inversion Hm; subst. rewrite remove_value_cons.
  destruct (MapCompare e.1 key); [constructor; auto|].
  destruct (MapCompare key e.1); [done|].
  destruct (set_empty _); [done|].
  constructor; [|done]. by apply set_erase_ascending.
Qed.

Lemma Reachable_values_ascending m :
  Reachable m -> Forall (fun e => values_ascending e.2) m.
Proof.
  apply Reachable_ind_step; [constructor|].
  intros m' [k v|k|k v] Hm'; simpl;
    auto using add_values_ascending, remove_Forall,
      remove_value_values_ascending.
Qed.

End Ascending.

(** ** Searching an ascending sequence *)

Section Search.
Context {A K : Type} (comp : K -> K -> bool) `{!StrictWeakOrder comp}.
Variable proj : A -> K.

(** Past an element that is not below the probe, nothing is equivalent to
    the probe. *)
Lemma ascending_tail_absent k a (l : list A) :
  comp (proj a) k = false ->
  Forall (fun b => comp (proj a) (proj b) = true) l ->
  Forall (fun b => equiv comp k (proj b) = false) l.
Proof.
  intros Hak Hall. eapply Forall_impl; [exact Hall|].
  intros b Hab. simpl in Hab.
  destruct (equiv comp k (proj b)) eqn:Hkb; [|done].
  rewrite (equiv_sym comp) in Hkb.
  by rewrite (comp_equiv_r comp _ _ _ Hab Hkb) in Hak.
Qed.

Lemma absent_not_Exists k (P : A -> Prop) (l : list A) :
  Forall (fun b => equiv comp k (proj b) = false) l ->
  Exists (fun b => equiv comp k (proj b) = true /\ P b) l -> False.
Proof.
  intros Hall Hex. induction Hex as [b l [Hb _]|b l _ IH];
    inversion Hall; subst; [congruence|auto].
Qed.

Lemma below_not_equiv k a : comp (proj a) k = true -> equiv comp k (proj a) = false.
Proof. intros Hak. unfold equiv. by rewrite Hak, andb_false_r. Qed.
End Search.

(** ** Lookup, removal and insertion *)

Section Operations.
Context {Key Value : Type}.
Variable MapCompare : Key -> Key -> bool.
Variable SetCompare : Value -> Value -> bool.
Context `{!StrictWeakOrder MapCompare} `{!StrictWeakOrder SetCompare}.
Implicit Types (m : MultiSetMap Key Value) (e : Entry Key Value).
Implicit Types (s : ValueSet Value).

Local Abbreviation add := (add MapCompare SetCompare).
Local Abbreviation remove := (remove MapCompare).
Local Abbreviation remove_value := (remove_value MapCompare SetCompare).
Local Abbreviation find := (find MapCompare).
Local Abbreviation Reachable := (Reachable MapCompare SetCompare).
Local Abbreviation keys_ascending := (keys_ascending MapCompare).
Local Abbreviation values_ascending := (values_ascending SetCompare).
Local Abbreviation key_absent := (key_absent MapCompare).
Local Abbreviation value_absent := (value_absent SetCompare).

Lemma set_insert_contains value s :
  Exists (fun x => equiv SetCompare value x = true)
    (set_insert SetCompare value s).
Proof.
  induction s as [|x s IH].
  - rewrite set_insert_nil. left. apply (equiv_refl SetCompare).
  - rewrite set_insert_cons.
    destruct (SetCompare x value) eqn:Hxv; [by right|].
    destruct (SetCompare value x) eqn:Hvx; left.
    + apply (equiv_refl SetCompare).
    + unfold equiv. by rewrite Hxv, Hvx.
Qed.

(** C5. Right after [add(k, v)], the set that [find(k)] returns holds an
    element equivalent to [v] for [SetCompare]. *)
Theorem add_then_find_contains key value m :
  Exists (fun x => equiv SetCompare value x = true)
    (find key (add key value m)).
Proof.
  induction m as [|e m IH].
  - rewrite add_nil, find_cons. simpl.
    rewrite (comp_irrefl MapCompare). left. apply (equiv_refl SetCompare).
  - rewrite add_cons.
    destruct (MapCompare e.1 key) eqn:Hek.
    { by rewrite find_cons, Hek. }
    destruct (MapCompare key e.1) eqn:Hke.
    + rewrite find_cons. simpl. rewrite (comp_irrefl MapCompare).
      left. apply (equiv_refl SetCompare).
    + rewrite find_cons. simpl. rewrite Hek, Hke.
      apply set_insert_contains.
Qed.

Lemma find_present key m e :
  keys_ascending m -> In e m -> equiv MapCompare key e.1 = true ->
  find key m = e.2.
Proof.
  unfold keys_ascending.
  induction m as [|e0 m IH]; intros Hm Hin Heq; [done|].
  inversion Hm as [|? ? Hm' He0]; subst. rewrite find_cons.
  destruct (MapCompare e0.1 key) eqn:Hek.
  - destruct Hin as [->|Hin]; [|auto].
    by rewrite (below_not_equiv MapCompare fst key e) in Heq.
  - pose proof (ascending_tail_absent MapCompare fst key e0 m Hek He0) as Habs.
    destruct Hin as [->|Hin].
    + unfold equiv in Heq. by destruct (MapCompare key e.1).
    + rewrite List.Forall_forall in Habs. specialize (Habs e Hin).
      simpl in Habs. congruence.
Qed.

Lemma find_absent key m : key_absent key m -> find key m = emptySet.
Proof.
  induction m as [|e m IH]; intros Habs; [done|].
  inversion Habs as [|? ? He Habs']; subst. rewrite find_cons.
  destruct (MapCompare e.1 key) eqn:Hek; [auto|].
  destruct (MapCompare key e.1) eqn:Hke; [done|].
  unfold equiv in He. by rewrite Hek, Hke in He.
Qed.

(** C6. [find(key)] always returns a set: the one stored with the key when
    an entry with an equivalent key exists, and the empty set otherwise. *)
Theorem find_total key m :
  Reachable m ->
  (forall e, In e m -> equiv MapCompare key e.1 = true -> find key m = e.2) /\
  (key_absent key m -> find key m = emptySet).
Proof.
  intros Hm. split.
  - intros e. apply find_present.
    by apply (Reachable_keys_ascending MapCompare SetCompare).
  - apply find_absent.
Qed.

Lemma remove_absent key m : key_absent key m -> remove key m = m.
Proof.
  induction m as [|e m IH]; intros Habs; [done|].
  inversion Habs as [|? ? He Habs']; subst. rewrite remove_cons.
  destruct (MapCompare e.1 key) eqn:Hek; [by rewrite IH|].
  destruct (MapCompare key e.1) eqn:Hke; [done|].
  unfold equiv in He. by rewrite Hek, Hke in He.
Qed.

Lemma remove_value_absent_key key value m :
  key_absent key m -> remove_value key value m = m.
Proof.
  induction m as [|e m IH]; intros Habs; [done|].
  inversion Habs as [|? ? He Habs']; subst. rewrite remove_value_cons.
  destruct (MapCompare e.1 key) eqn:Hek; [by rewrite IH|].
  destruct (MapCompare key e.1) eqn:Hke; [done|].
  unfold equiv in He. by rewrite Hek, Hke in He.
Qed.

Lemma set_erase_absent value s :
  value_absent value s -> set_erase SetCompare value s = s.
Proof.
  induction s as [|x s IH]; intros Habs; [done|].
  inversion Habs as [|? ? Hx Habs']; subst. rewrite set_erase_cons.
  destruct (SetCompare x value) eqn:Hxv; [by rewrite IH|].
  destruct (SetCompare value x) eqn:Hvx; [done|].
  unfold equiv in Hx. by rewrite Hxv, Hvx in Hx.
Qed.

Lemma remove_value_absent_value key value m :
  keys_ascending m -> no_empty_entries m ->
  Exists (fun e => equiv MapCompare key e.1 = true /\ value_absent value e.2) m ->
  remove_value key value m = m.
Proof.
  unfold keys_ascending, no_empty_entries.
  induction m as [|e0 m IH]; intros Hm Hne Hex; [done|].
  inversion Hm as [|? ? Hm' He0]; subst.
  inversion Hne as [|? ? Hne0 Hne']; subst.
  rewrite remove_value_cons.
  destruct (MapCompare e0.1 key) eqn:Hek.
  - inversion Hex as [? ? [Heq _]|? ? Hex']; subst; [|by rewrite IH].
    by rewrite (below_not_equiv MapCompare fst key e0) in Heq.
  - destruct (MapCompare key e0.1) eqn:Hke; [done|].
    inversion Hex as [? ? [_ Habs]|? ? Hex']; subst.
    + rewrite (set_erase_absent _ _ Habs).
      destruct e0 as [k0 [|x s0]]; [done|done].
    + exfalso. eapply (absent_not_Exists MapCompare fst); [|exact Hex'].
      by apply (ascending_tail_absent MapCompare fst key e0).
Qed.

(** C7. Removing a key that is absent, or a value from an absent key, or a
    value that the set of a present key does not hold, leaves the container
    as it was. *)
Theorem remove_absent_unchanged key value m :
  Reachable m ->
  (key_absent key m -> remove key m = m) /\
  (key_absent key m -> remove_value key value m = m) /\
  (Exists (fun e => equiv MapCompare key e.1 = true /\ value_absent value e.2) m ->
   remove_value key value m = m).
Proof.
  intros Hm. split; [apply remove_absent|].
  split; [apply remove_value_absent_key|].
  apply remove_value_absent_value.
  - by apply (Reachable_keys_ascending MapCompare SetCompare).
  - by apply (Reachable_no_empty MapCompare SetCompare).
Qed.

End Operations.

(** ** Idempotence of [add] *)

Section Idempotence.
Context {Key Value : Type}.
Variable MapCompare : Key -> Key -> bool.
Variable SetCompare : Value -> Value -> bool.
Context `{!StrictWeakOrder MapCompare} `{!StrictWeakOrder SetCompare}.
Implicit Types (m : MultiSetMap Key Value) (e : Entry Key Value).
Implicit Types (s : ValueSet Value).

Local Abbreviation add := (add MapCompare SetCompare).
Local Abbreviation find := (find MapCompare).
Local Abbreviation Reachable := (Reachable MapCompare SetCompare).
Local Abbreviation keys_ascending := (keys_ascending MapCompare).
Local Abbreviation values_ascending := (values_ascending SetCompare).

Lemma set_insert_idempotent value s :
  set_insert SetCompare value (set_insert SetCompare value s) =
  set_insert SetCompare value s.
Proof.
  induction s as [|x s IH].
  - rewrite set_insert_nil, set_insert_cons.
    by rewrite (comp_irrefl SetCompare).
  - rewrite set_insert_cons.
    destruct (SetCompare x value) eqn:Hxv.
    { by rewrite set_insert_cons, Hxv, IH. }
    destruct (SetCompare value x) eqn:Hvx.
    + by rewrite set_insert_cons, (comp_irrefl SetCompare).
    + by rewrite set_insert_cons, Hxv, Hvx.
Qed.

Lemma add_twice key value m :
  add key value (add key value m) = add key value m.
Proof.
  induction m as [|e m IH].
  - rewrite add_nil, add_cons. simpl.
    by rewrite (comp_irrefl MapCompare), set_insert_cons,
      (comp_irrefl SetCompare).
  - rewrite add_cons.
    destruct (MapCompare e.1 key) eqn:Hek.
    { by rewrite add_cons, Hek, IH. }
    destruct (MapCompare key e.1) eqn:Hke.
    + rewrite add_cons. simpl.
      by rewrite (comp_irrefl MapCompare), set_insert_cons,
        (comp_irrefl SetCompare).
    + rewrite add_cons. simpl.
      by rewrite Hek, Hke, set_insert_idempotent.
Qed.

Lemma set_insert_present value s :
  values_ascending s ->
  Exists (fun x => equiv SetCompare value x = true) s ->
  set_insert SetCompare value s = s.
Proof.
  unfold values_ascending.
  induction s as [|x s IH]; intros Hs Hex; [inversion Hex|].
  inversion Hs as [|? ? Hs' Hx]; subst. rewrite set_insert_cons.
  destruct (SetCompare x value) eqn:Hxv.
  - inversion Hex as [? ? Heq|? ? Hex']; subst; [|by rewrite IH].
    pose proof (below_not_equiv SetCompare id value x Hxv) as Hne.
    simpl in Hne. congruence.
  - destruct (SetCompare value x) eqn:Hvx; [|done].
    exfalso. inversion Hex as [? ? Heq|? ? Hex']; subst.
    + unfold equiv in Heq. by rewrite Hvx in Heq.
    + eapply (absent_not_Exists SetCompare id value (fun _ => True)).
      * by apply (ascending_tail_absent SetCompare id value x).
      * eapply Exists_impl; [exact Hex'|]. by intros.
Qed.

Lemma add_present key value m :
  keys_ascending m -> Forall (fun e => values_ascending e.2) m ->
  Exists (fun e => equiv MapCompare key e.1 = true /\
                   Exists (fun x => equiv SetCompare value x = true) e.2) m ->
  add key value m = m.
Proof.
  unfold keys_ascending.
  induction m as [|e0 m IH]; intros Hm Hvs Hex; [inversion Hex|].
  inversion Hm as [|? ? Hm' He0]; subst.
  inversion Hvs as [|? ? Hvs0 Hvs']; subst.
  rewrite add_cons.
  destruct (MapCompare e0.1 key) eqn:Hek.
  - inversion Hex as [? ? [Heq _]|? ? Hex']; subst; [|by rewrite IH].
    by rewrite (below_not_equiv MapCompare fst key e0) in Heq.
  - pose proof (ascending_tail_absent MapCompare fst key e0 m Hek He0) as Habs.
    inversion Hex as [? ? [Heq Hin]|? ? Hex']; subst.
    + unfold equiv in Heq. destruct (MapCompare key e0.1); [done|].
      rewrite (set_insert_present _ _ Hvs0 Hin). by destruct e0.
    + exfalso. exact (absent_not_Exists MapCompare fst key _ m Habs Hex').
Qed.

(** C8. [add] is idempotent: a second [add(k, v)] right after the first
    leaves the container, and so what [find] returns for every key, as the
    first left it; and adding a value equivalent to one that the set of the
    key already holds changes nothing. *)
Theorem add_idempotent key value m :
  Reachable m ->
  add key value (add key value m) = add key value m /\
  (forall key', find key' (add key value (add key value m)) =
                find key' (add key value m)) /\
  (Exists (fun e => equiv MapCompare key e.1 = true /\
                    Exists (fun x => equiv SetCompare value x = true) e.2) m ->
   add key value m = m).
Proof.
  intros Hm. split; [apply add_twice|]. split.
  - intros key'. by rewrite add_twice.
  - apply add_present.
    + by apply (Reachable_keys_ascending MapCompare SetCompare).
    + by apply (Reachable_values_ascending MapCompare SetCompare).
Qed.

End Idempotence.

(** ** The lexicographic order on [std::string] *)

Section StdStringOrder.
Import StdString.

Lemma ascii_compare_refl c : Ascii.compare c c = Eq.
Proof. apply N.compare_refl. Qed.

Lemma ascii_compare_Lt_trans x y z :
  Ascii.compare x y = Lt -> Ascii.compare y z = Lt -> Ascii.compare x z = Lt.
Proof. unfold Ascii.compare. rewrite !N.compare_lt_iff. lia. Qed.

Lemma string_compare_refl s : String.compare s s = Eq.
Proof.
  induction s as [|c s IH]; [done|].
  simpl. by rewrite ascii_compare_refl.
Qed.

Lemma string_compare_Lt_trans a b c :
  String.compare a b = Lt -> String.compare b c = Lt -> String.compare a c = Lt.
Proof.
  revert b c. induction a as [|x a IH]; intros [|y b] [|z c]; simpl; try done.
  destruct (Ascii.compare x y) eqn:Hxy; try done;
    destruct (Ascii.compare y z) eqn:Hyz; try done.
  - apply Ascii.compare_eq_iff in Hxy, Hyz. subst.
    rewrite ascii_compare_refl. apply IH.
  - apply Ascii.compare_eq_iff in Hxy. subst. by rewrite Hyz.
  - apply Ascii.compare_eq_iff in Hyz. subst. by rewrite Hxy.
  - by rewrite (ascii_compare_Lt_trans x y z).
Qed.

Lemma less_Lt a b : less a b = true <-> String.compare a b = Lt.
Proof. unfold less, String.ltb. by destruct (String.compare a b). Qed.

Lemma less_equiv_eq a b : equiv less a b = true -> a = b.
Proof.
  unfold equiv, less, String.ltb. rewrite (String.compare_antisym a b).
  destruct (String.compare b a) eqn:Hba; simpl; try done.
  intros _. symmetry. by apply String.compare_eq_iff.
Qed.

#[global] Instance less_strict_weak_order : StrictWeakOrder less.
Proof.
  split.
  - intros a. unfold less, String.ltb. by rewrite string_compare_refl.
  - intros a b c. rewrite !less_Lt. apply string_compare_Lt_trans.
  - intros a b c Hab Hbc.
    apply less_equiv_eq in Hab. apply less_equiv_eq in Hbc. subst.
    unfold equiv, less, String.ltb. by rewrite string_compare_refl.
Qed.

(** Nothing is below the empty string, and everything starts with it. *)
Lemma less_empty_r s : less s EmptyString = false.
Proof. by destruct s. Qed.

Lemma starts_with_empty s : starts_with s EmptyString = true.
Proof. by destruct s. Qed.

(** A string that starts with [p] is not below [p]. *)
Lemma starts_with_not_less p : forall s,
  starts_with s p = true -> less s p = false.
Proof.
  unfold starts_with, less, String.ltb.
  induction p as [|c p IH]; intros [|a s]; simpl; try done.
  destruct (ascii_dec c a) as [->|]; [|done].
  rewrite ascii_compare_refl. apply IH.
Qed.

(** Once a string that is not below [p] fails to start with [p], so does
    every string above it. *)
Lemma starts_with_stops p : forall s s',
  less s p = false -> starts_with s p = false -> less s s' = true ->
  starts_with s' p = false.
Proof.
  unfold starts_with, less, String.ltb.
  induction p as [|c p IH]; intros [|a s] [|b s']; simpl; try done.
  destruct (ascii_dec c b) as [->|]; [|done].
  destruct (ascii_dec b a) as [->|Hne].
  - rewrite ascii_compare_refl. apply IH.
  - destruct (Ascii.compare a b) eqn:Hab; try done.
    apply Ascii.compare_eq_iff in Hab. by subst.
Qed.

End StdStringOrder.

(** ** Prefix search *)

Section PrefixSearch.
Context {Key Value : Type}.
Variable MapCompare : Key -> Key -> bool.
Context `{!StrictWeakOrder MapCompare}.
Variable starts_with : Key -> Key -> bool.
Variable Key_is_string : bool.
Variable to_lower : Key -> Key.
Implicit Types (m l : list (Entry Key Value)) (e : Entry Key Value).

Local Abbreviation keys_ascending := (keys_ascending MapCompare).
Local Abbreviation scan_while := (scan_while (Value := Value) starts_with).
Local Abbreviation scan_all := (scan_all (Value := Value) starts_with to_lower).

(** The contract on [MapCompare]: it orders keys by the relation that
    [starts_with] uses. *)
Hypothesis starts_with_not_below : forall k p,
  starts_with k p = true -> MapCompare k p = false.
Hypothesis starts_with_interval : forall k k' p,
  MapCompare k p = false -> starts_with k p = false ->
  MapCompare k k' = true -> starts_with k' p = false.

Lemma filter_Forall (P : Entry Key Value -> Prop) f l :
  Forall P l -> Forall P (List.filter f l).
Proof.
  induction 1 as [|e l He Hl IH]; simpl; [constructor|].
  destruct (f e); [by constructor|done].
Qed.

Lemma filter_keys_ascending f l :
  keys_ascending l -> keys_ascending (List.filter f l).
Proof.
  unfold keys_ascending.
  induction 1 as [|e l Hl IH He]; simpl; [constructor|].
  destruct (f e); [|done]. constructor; [done|]. by apply filter_Forall.
Qed.

Lemma filter_none f l :
  Forall (fun e => f e = false) l -> List.filter f l = [].
Proof.
  induction 1 as [|e l He Hl IH]; simpl; [done|]. by rewrite He.
Qed.

(** The loop of the case-insensitive branch keeps the entries that pass
    its test. *)
Lemma scan_all_filter prefix l :
  scan_all prefix l =
  List.filter (fun e => starts_with (to_lower e.1) (to_lower prefix)) l.
Proof.
  induction l as [|[k s] l IH]; simpl; [done|].
  by destruct (starts_with (to_lower k) (to_lower prefix)); rewrite IH.
Qed.

(** The probe: everything before it is below [prefix], nothing from it on. *)
Lemma map_lower_bound_take prefix l :
  Forall (fun e => MapCompare e.1 prefix = true)
    (take (map_lower_bound MapCompare prefix l) l).
Proof.
  unfold map_lower_bound.
  induction l as [|e l IH]; simpl; [constructor|].
  destruct (MapCompare e.1 prefix) eqn:He; simpl; by constructor.
Qed.

Lemma map_lower_bound_drop prefix l :
  keys_ascending l ->
  keys_ascending (drop (map_lower_bound MapCompare prefix l) l) /\
  Forall (fun e => MapCompare e.1 prefix = false)
    (drop (map_lower_bound MapCompare prefix l) l).
Proof.
  unfold keys_ascending, map_lower_bound.
  induction 1 as [|e l Hl IH He]; simpl; [by split; constructor|].
  destruct (MapCompare e.1 prefix) eqn:Hep; simpl; [done|].
  split; [by constructor|]. constructor; [done|].
  eapply Forall_impl; [exact He|]. simpl. intros e' Hee'.
  destruct (MapCompare e'.1 prefix) eqn:He'p; [|done].
  by rewrite (comp_trans MapCompare _ _ _ Hee' He'p) in Hep.
Qed.

(** What the probe skips holds no match. *)
Lemma filter_drop_lower_bound prefix l :
  List.filter (fun e => starts_with e.1 prefix)
    (drop (map_lower_bound MapCompare prefix l) l) =
  List.filter (fun e => starts_with e.1 prefix) l.
Proof.
  unfold map_lower_bound.
  induction l as [|e l IH]; simpl; [done|].
  destruct (MapCompare e.1 prefix) eqn:Hep; simpl; [|done].
  destruct (starts_with e.1 prefix) eqn:Hsw; [|done].
  by rewrite (starts_with_not_below _ _ Hsw) in Hep.
Qed.

(** From the probe on, stopping at the first mismatch loses no match. *)
Lemma scan_while_filter prefix l :
  keys_ascending l ->
  Forall (fun e => MapCompare e.1 prefix = false) l ->
  scan_while prefix l = List.filter (fun e => starts_with e.1 prefix) l.
Proof.
  unfold keys_ascending.
  induction 1 as [|[k s] l Hl IH He]; intros Hnb; simpl; [done|].
  inversion Hnb as [|? ? Hk Hnb']; subst. simpl in *.
  destruct (starts_with k prefix) eqn:Hsw; [by rewrite IH|].
  symmetry. apply filter_none.
  eapply Forall_impl; [exact He|]. simpl. intros e' Hke'.
  by apply (starts_with_interval k).
Qed.

Lemma findByPrefix_sensitive_filter prefix m :
  keys_ascending m ->
  findByPrefix MapCompare starts_with Key_is_string to_lower prefix true m =
  List.filter (fun e => starts_with e.1 prefix) m.
Proof.
  intros Hm. unfold findByPrefix.
  destruct (map_lower_bound_drop prefix m Hm) as [Hasc Hnb].
  by rewrite scan_while_filter, filter_drop_lower_bound.
Qed.

End PrefixSearch.

(** C9. When [Key] is not [std::string], [findByPrefix(p, false)] returns
    the empty sequence, whatever the prefix and the container state. *)
Theorem findByPrefix_insensitive_non_string {Key Value : Type}
    (MapCompare : Key -> Key -> bool) (starts_with : Key -> Key -> bool)
    (Key_is_string : bool) (to_lower : Key -> Key)
    (prefix : Key) (m : MultiSetMap Key Value) :
  Key_is_string = false ->
  findByPrefix MapCompare starts_with Key_is_string to_lower prefix false m = [].
Proof. intros ->. reflexivity. Qed.

(** ** Prefix search over [std::string] keys *)

Section StdStringPrefix.
Context {Value : Type}.
Variable SetCompare : Value -> Value -> bool.
Implicit Types (m : MultiSetMap string Value) (e : Entry string Value).

Local Abbreviation Reachable := (Reachable StdString.less SetCompare).
Local Abbreviation keys_ascending := (keys_ascending StdString.less).

(** C2. With [std::string] keys in their default order,
    [findByPrefix(p, true)] returns exactly the entries whose key starts
    with [p], each with its stored set, in ascending key order; it is the
    forward scan from the lower bound of [p], which has every key below [p]
    before it and none after, up to the first key that does not start with
    [p] or the end of the map. *)
Theorem findByPrefix_case_sensitive prefix m :
  Reachable m ->
  let result := StdString.findByPrefix prefix true m in
  let it := map_lower_bound StdString.less prefix m in
  result = List.filter (fun e => StdString.starts_with e.1 prefix) m /\
  (forall e, In e result <->
             In e m /\ StdString.starts_with e.1 prefix = true) /\
  keys_ascending result /\
  Forall (fun e => StdString.less e.1 prefix = true) (take it m) /\
  Forall (fun e => StdString.less e.1 prefix = false) (drop it m) /\
  result = scan_while StdString.starts_with prefix (drop it m).
Proof.
  intros Hm. cbv zeta.
  apply (Reachable_keys_ascending StdString.less SetCompare) in Hm.
  assert (StdString.findByPrefix prefix true m =
          List.filter (fun e => StdString.starts_with e.1 prefix) m) as Heq.
  { apply findByPrefix_sensitive_filter; [apply _| | |done].
    - intros k p. apply starts_with_not_less.
    - intros k k' p. apply starts_with_stops. }
  split; [done|]. split; [|split; [|split; [|split]]].
  - intros e. rewrite Heq. apply List.filter_In.
  - rewrite Heq. by apply filter_keys_ascending.
  - apply map_lower_bound_take.
  - by destruct (map_lower_bound_drop StdString.less prefix m Hm).
  - reflexivity.
Qed.

Lemma scan_while_empty_prefix m :
  scan_while StdString.starts_with EmptyString m = m.
Proof.
  induction m as [|[k s] m IH]; simpl; [done|].
  by rewrite starts_with_empty, IH.
Qed.

Lemma map_lower_bound_empty_prefix m :
  map_lower_bound StdString.less EmptyString m = 0.
Proof.
  destruct m as [|e m]; [done|].
  unfold map_lower_bound. simpl. by rewrite less_empty_r.
Qed.

(** C10. With [std::string] keys in their default order,
    [findByPrefix] with the empty prefix and [caseSensitive = true]
    returns every entry of the container, in
    ascending key order: the lower bound of the empty string is the first
    entry, and every key starts with the empty string. *)
Theorem findByPrefix_empty_prefix m :
  Reachable m ->
  StdString.findByPrefix EmptyString true m = m /\
  keys_ascending (StdString.findByPrefix EmptyString true m) /\
  map_lower_bound StdString.less EmptyString m = 0 /\
  Forall (fun e => StdString.starts_with e.1 EmptyString = true) m.
Proof.
  intros Hm.
  assert (StdString.findByPrefix EmptyString true m = m) as Heq.
  { unfold StdString.findByPrefix, findByPrefix.
    by rewrite map_lower_bound_empty_prefix, scan_while_empty_prefix. }
  rewrite Heq. split; [done|]. split; [|split].
  - by apply (Reachable_keys_ascending StdString.less SetCompare).
  - apply map_lower_bound_empty_prefix.
  - apply List.Forall_forall. intros e _. apply starts_with_empty.
Qed.

End StdStringPrefix.

(** ** Case-insensitive search over [std::string] keys *)

(** [std::tolower] in the "C" locale is the case folding of the
    specification, character by character. *)
Lemma tolower_fold_char c : StdString.tolower c = CaseFold.fold_char c.
Proof. destruct c as [[] [] [] [] [] [] [] []]; reflexivity. Qed.

Lemma transform_tolower_fold s :
  StdString.transform_tolower s = CaseFold.fold s.
Proof.
  induction s as [|c s IH]; simpl; [done|].
  by rewrite tolower_fold_char, IH.
Qed.

Example fold_char_bounds :
  CaseFold.fold_char "A" = "a"%char /\ CaseFold.fold_char "Z" = "z"%char /\
  CaseFold.fold_char "@" = "@"%char /\ CaseFold.fold_char "[" = "["%char /\
  CaseFold.fold_char "q" = "q"%char /\
  CaseFold.fold "APPLication 42" = "application 42"%string.
Proof. by vm_compute. Qed.

(** The flipped comparator, as in [std::greater], is a strict weak
    ordering too. *)
Lemma flip_strict_weak_order {A} (comp : A -> A -> bool)
    `{!StrictWeakOrder comp} :
  StrictWeakOrder (fun a b => comp b a).
Proof.
  split.
  - intros a. apply (comp_irrefl comp).
  - intros a b c Hba Hcb. by apply (comp_trans comp c b a).
  - intros a b c Hab Hbc.
    change (equiv comp c a = true).
    change (equiv comp b a = true) in Hab.
    change (equiv comp c b = true) in Hbc.
    by apply (equiv_trans comp c b a).
Qed.

#[global] Instance greater_strict_weak_order :
  StrictWeakOrder StdString.greater.
Proof. apply (flip_strict_weak_order StdString.less). Qed.

(** C3. With [std::string] keys and any key comparator,
    [findByPrefix(p, false)] returns exactly the entries whose key, folded
    to lower case, starts with [p] folded to lower case; each entry is the
    stored one, key unchanged, and the entries come in ascending key order for
    [MapCompare], the order of the map. *)
Theorem findByPrefix_case_insensitive {Value : Type}
    (MapCompare : string -> string -> bool)
    (SetCompare : Value -> Value -> bool)
    `{!StrictWeakOrder MapCompare}
    (prefix : string) (m : MultiSetMap string Value) :
  Reachable MapCompare SetCompare m ->
  let result := StdString.findByPrefix_for MapCompare prefix false m in
  result = List.filter (fun e => CaseFold.matches prefix e.1) m /\
  (forall e, In e result <->
             In e m /\ CaseFold.matches prefix e.1 = true) /\
  keys_ascending MapCompare result.
Proof.
  intros Hm. cbv zeta.
  apply (Reachable_keys_ascending MapCompare SetCompare) in Hm.
  assert (StdString.findByPrefix_for MapCompare prefix false m =
          List.filter (fun e => CaseFold.matches prefix e.1) m) as Heq.
  { unfold StdString.findByPrefix_for, findByPrefix.
    rewrite scan_all_filter. apply List.filter_ext. intros e.
    unfold CaseFold.matches, StdString.starts_with.
    by rewrite !transform_tolower_fold. }
  rewrite Heq. split; [done|]. split.
  - intros e. apply List.filter_In.
  - by apply filter_keys_ascending.
Qed.

(** ** The default [SetCompare] *)

(** When [Value] is [Key], the default is the order of the values. *)
Lemma default_SetCompare_same_type {Key : Type} (Key_less : Key -> Key -> bool) :
  default_SetCompare Key_less (fun v => v) = Key_less.
Proof. reflexivity. Qed.

(** C4. In [MultiSetMap<unsigned char, int>] the default [SetCompare]
    does not order the values 1 and 257 although 1 < 257, so the second of
    [add(0, 1)], [add(0, 257)] is dropped; under the natural order of [int]
    both values are kept. *)
Theorem default_SetCompare_not_natural_order :
  UCharInt.SetCompare 1 257 = false /\
  UCharInt.int_less 1 257 = true /\
  find UCharInt.MapCompare 0%Z
    (add UCharInt.MapCompare UCharInt.SetCompare 0%Z 257%Z
       (add UCharInt.MapCompare UCharInt.SetCompare 0%Z 1%Z empty_map))
  = [1%Z] /\
  find UCharInt.MapCompare 0%Z
    (add UCharInt.MapCompare UCharInt.int_less 0%Z 257%Z
       (add UCharInt.MapCompare UCharInt.int_less 0%Z 1%Z empty_map))
  = [1%Z; 257%Z].
Proof. by vm_compute. Qed.

(** ** The properties at sample containers *)

Section Samples.
Import Sample.
Local Open Scope string_scope.

Lemma word_map_Reachable : Reachable StdString.less StdString.less word_map.
Proof. apply Reachable_run. constructor. Defined.

Lemma mixed_case_map_Reachable :
  Reachable StdString.less StdString.less mixed_case_map.
Proof. apply Reachable_run. constructor. Defined.

Lemma fruit_map_Reachable :
  Reachable StdString.less StdString.less fruit_map.
Proof. apply Reachable_run. constructor. Defined.

Example word_map_entries :
  word_map = [("apple", ["green"; "red"]); ("application", ["noun"]);
              ("apply", ["verb"]); ("banana", ["yellow"])].
Proof. reflexivity. Qed.

Example prefix_app :
  map fst (StdString.findByPrefix "app" true word_map) =
  ["apple"; "application"; "apply"].
Proof. reflexivity. Qed.

Example prefix_ban :
  StdString.findByPrefix "ban" true word_map = [("banana", ["yellow"])].
Proof. reflexivity. Qed.

Example prefix_zz : StdString.findByPrefix "zz" true word_map = [].
Proof. reflexivity. Qed.

Example prefix_app_any_case :
  map fst (StdString.findByPrefix "app" false mixed_case_map) =
  ["APPLICATION"; "Apple"; "apply"].
Proof. reflexivity. Qed.

Example fruit_scenario :
  find StdString.less "fruit" fruit_map = ["banana"] /\
  let drained :=
    remove_value StdString.less StdString.less "fruit" "banana" fruit_map in
  drained = [] /\ find StdString.less "fruit" drained = emptySet /\
  StdString.findByPrefix "fr" true drained = [].
Proof. by vm_compute. Qed.

Lemma add_then_find_contains_witness :
  StrictWeakOrder StdString.less /\
  Exists (fun x => equiv StdString.less "apple" x = true)
    (find StdString.less "fruit"
       (add StdString.less StdString.less "fruit" "apple" fruit_map)).
Proof.
  split; [apply _|].
  apply (add_then_find_contains StdString.less StdString.less).
Defined.

Lemma find_total_witness :
  Reachable StdString.less StdString.less word_map /\
  (forall e, In e word_map -> equiv StdString.less "apple" e.1 = true ->
             find StdString.less "apple" word_map = e.2) /\
  (key_absent StdString.less "pear" word_map ->
   find StdString.less "pear" word_map = emptySet).
Proof.
  split; [exact word_map_Reachable|]. split.
  - apply (find_total StdString.less StdString.less "apple" word_map
             word_map_Reachable).
  - apply (find_total StdString.less StdString.less "pear" word_map
             word_map_Reachable).
Defined.

Lemma remove_absent_unchanged_witness :
  Reachable StdString.less StdString.less word_map /\
  key_absent StdString.less "pear" word_map /\
  remove StdString.less "pear" word_map = word_map /\
  remove_value StdString.less StdString.less "pear" "red" word_map = word_map /\
  Exists (fun e => equiv StdString.less "apple" e.1 = true /\
                   value_absent StdString.less "blue" e.2) word_map /\
  remove_value StdString.less StdString.less "apple" "blue" word_map = word_map.
Proof.
  assert (key_absent StdString.less "pear" word_map) as Hpear.
  { repeat constructor. }
  assert (Exists (fun e => equiv StdString.less "apple" e.1 = true /\
                   value_absent StdString.less "blue" e.2) word_map) as Hblue.
  { left. split; [reflexivity|]. repeat constructor. }
  split; [exact word_map_Reachable|]. split; [exact Hpear|].
  destruct (remove_absent_unchanged StdString.less StdString.less
              "pear" "red" word_map word_map_Reachable) as (H1 & H2 & _).
  destruct (remove_absent_unchanged StdString.less StdString.less
              "apple" "blue" word_map word_map_Reachable) as (_ & _ & H3).
  auto.
Defined.

Lemma add_idempotent_witness :
  Reachable StdString.less StdString.less word_map /\
  add StdString.less StdString.less "pear" "green"
    (add StdString.less StdString.less "pear" "green" word_map) =
  add StdString.less StdString.less "pear" "green" word_map.
Proof.
  split; [exact word_map_Reachable|].
  apply (add_idempotent StdString.less StdString.less "pear" "green" word_map
           word_map_Reachable).
Defined.

Lemma findByPrefix_case_sensitive_witness :
  Reachable StdString.less StdString.less word_map /\
  StdString.findByPrefix "app" true word_map =
  List.filter (fun e => StdString.starts_with e.1 "app") word_map.
Proof.
  split; [exact word_map_Reachable|].
  apply (findByPrefix_case_sensitive StdString.less "app" word_map
           word_map_Reachable).
Defined.

Lemma mixed_case_descending_Reachable :
  Reachable StdString.greater StdString.less mixed_case_descending.
Proof. apply Reachable_run. constructor. Defined.

Lemma findByPrefix_case_insensitive_witness :
  Reachable StdString.greater StdString.less mixed_case_descending /\
  StdString.findByPrefix_for StdString.greater "aPp" false
    mixed_case_descending =
  [("apply", ["3"]); ("Apple", ["1"]); ("APPLICATION", ["2"])].
Proof.
  split; [exact mixed_case_descending_Reachable|].
  destruct (findByPrefix_case_insensitive StdString.greater StdString.less
              "aPp" mixed_case_descending mixed_case_descending_Reachable)
    as [Heq _].
  rewrite Heq. reflexivity.
Defined.

Lemma findByPrefix_empty_prefix_witness :
  Reachable StdString.less StdString.less word_map /\
  StdString.findByPrefix EmptyString true word_map = word_map.
Proof.
  split; [exact word_map_Reachable|].
  apply (findByPrefix_empty_prefix StdString.less word_map
           word_map_Reachable).
Defined.

Lemma findByPrefix_insensitive_non_string_witness :
  false = false /\
  CodePoints.findByPrefix [97; 112] false [([65; 112; 112], [1]); ([97; 112], [2])]
  = [].
Proof.
  split; [reflexivity|].
  apply (findByPrefix_insensitive_non_string CodePoints.less
           CodePoints.starts_with false CodePoints.transform_tolower).
  reflexivity.
Defined.

End Samples.

(** * Further properties of the member functions *)

(** ** What [find] returns after a mutating call *)

Section FindAfter.
Context {Key Value : Type}.
Variable MapCompare : Key -> Key -> bool.
Variable SetCompare : Value -> Value -> bool.
Context `{!StrictWeakOrder MapCompare} `{!StrictWeakOrder SetCompare}.
Implicit Types (m : MultiSetMap Key Value) (e : Entry Key Value).
Implicit Types (s : ValueSet Value).

Local Abbreviation add := (add MapCompare SetCompare).
Local Abbreviation remove := (remove MapCompare).
Local Abbreviation remove_value := (remove_value MapCompare SetCompare).
Local Abbreviation find := (find MapCompare).
Local Abbreviation Reachable := (Reachable MapCompare SetCompare).
Local Abbreviation keys_ascending := (keys_ascending MapCompare).
Local Abbreviation values_ascending := (values_ascending SetCompare).
Local Abbreviation key_absent := (key_absent MapCompare).
Local Abbreviation value_absent := (value_absent SetCompare).

(** A probe below every key finds nothing. *)
Lemma find_all_above key m :
  Forall (fun e => MapCompare key e.1 = true) m -> find key m = emptySet.
Proof.
  destruct m as [|e m]; [done|]. intros Hall.
  inversion Hall as [|? ? He _]; subst. rewrite find_cons.
  by rewrite (comp_asym MapCompare _ _ He), He.
Qed.

(** Past an entry with a key equivalent to the probe, every key is above
    the probe. *)
Lemma equiv_head_all_above key e m :
  MapCompare e.1 key = false -> MapCompare key e.1 = false ->
  Forall (fun e' => MapCompare e.1 e'.1 = true) m ->
  Forall (fun e' => MapCompare key e'.1 = true) m.
Proof.
  intros Hek Hke Hall. eapply Forall_impl; [exact Hall|].
  intros e' He'. simpl in He'. apply (comp_equiv_l MapCompare key e.1); [|done].
  unfold equiv. by rewrite Hek, Hke.
Qed.

Lemma not_below_not_above_equiv (k k' : Key) :
  MapCompare k k' = false -> MapCompare k' k = false ->
  equiv MapCompare k k' = true.
Proof. intros H1 H2. unfold equiv. by rewrite H1, H2. Qed.

Lemma find_add_set_insert key value m :
  find key (add key value m) = set_insert SetCompare value (find key m).
Proof.
  induction m as [|e m IH].
  - rewrite add_nil, find_cons. simpl.
    by rewrite (comp_irrefl MapCompare).
  - rewrite add_cons, (find_cons MapCompare key e m).
    destruct (MapCompare e.1 key) eqn:Hek.
    { by rewrite find_cons, Hek. }
    destruct (MapCompare key e.1) eqn:Hke; rewrite find_cons; simpl.
    + by rewrite (comp_irrefl MapCompare).
    + by rewrite Hek, Hke.
Qed.

(** X1. Right after [add(k, v)], [find(k)] is the set that [find(k)]
    returned before with [v] inserted. *)
Theorem find_add_same key value m :
  find key (add key value m) = set_insert SetCompare value (find key m).
Proof. apply find_add_set_insert. Qed.

(** The entry that [add] touches is in the container afterwards. *)
Lemma add_entry_In key value m :
  exists e, In e (add key value m) /\ equiv MapCompare key e.1 = true /\
            e.2 = find key (add key value m).
Proof.
  induction m as [|e m IH].
  - rewrite add_nil. eexists. split; [by left|].
    rewrite find_cons. simpl. rewrite (comp_irrefl MapCompare).
    split; [apply (equiv_refl MapCompare)|done].
  - rewrite add_cons.
    destruct (MapCompare e.1 key) eqn:Hek.
    { destruct IH as (e' & Hin & Heq & Hset). exists e'.
      split; [by right|]. split; [done|]. by rewrite find_cons, Hek. }
    destruct (MapCompare key e.1) eqn:Hke; eexists; (split; [by left|]);
      rewrite find_cons; simpl.
    + rewrite (comp_irrefl MapCompare).
      split; [apply (equiv_refl MapCompare)|done].
    + rewrite Hek, Hke. split; [|done]. unfold equiv. by rewrite Hek, Hke.
Qed.

(** X2. [add(k, v)] leaves what [find] returns for every key that is not
    equivalent to [k] as it was. *)
Theorem find_add_other key value key' m :
  equiv MapCompare key key' = false ->
  find key' (add key value m) = find key' m.
Proof.
  intros Hne. induction m as [|e m IH].
  - rewrite add_nil, find_cons. simpl.
    destruct (MapCompare key key') eqn:H1; [done|].
    destruct (MapCompare key' key) eqn:H2; [done|].
    unfold equiv in Hne. by rewrite H1, H2 in Hne.
  - rewrite add_cons.
    destruct (MapCompare e.1 key) eqn:Hek.
    { by rewrite !(find_cons MapCompare key'), IH. }
    destruct (MapCompare key e.1) eqn:Hke.
    + rewrite (find_cons MapCompare key' (key, [value])). simpl.
      destruct (MapCompare key key') eqn:H1; [done|].
      destruct (MapCompare key' key) eqn:H2.
      * rewrite find_cons.
        pose proof (comp_trans MapCompare _ _ _ H2 Hke) as H3.
        by rewrite (comp_asym MapCompare _ _ H3), H3.
      * unfold equiv in Hne. by rewrite H1, H2 in Hne.
    + rewrite !(find_cons MapCompare key'). simpl.
      destruct (MapCompare e.1 key') eqn:H1; [done|].
      destruct (MapCompare key' e.1) eqn:H2; [done|].
      pose proof (not_below_not_above_equiv _ _ Hke Hek) as Hq1.
      pose proof (not_below_not_above_equiv _ _ H1 H2) as Hq2.
      by rewrite (equiv_trans MapCompare _ _ _ Hq1 Hq2) in Hne.
Qed.

Lemma find_remove_same_ascending key m :
  keys_ascending m -> find key (remove key m) = emptySet.
Proof.
  unfold keys_ascending.
  induction m as [|e m IH]; intros Hm; [done|].
  inversion Hm as [|? ? Hm' He]; subst. rewrite remove_cons.
  destruct (MapCompare e.1 key) eqn:Hek.
  { rewrite find_cons, Hek. auto. }
  destruct (MapCompare key e.1) eqn:Hke.
  - by rewrite find_cons, Hek, Hke.
  - apply find_all_above. by apply (equiv_head_all_above key e).
Qed.

(** X3. After [remove(k)], [find(k)] returns the empty set. *)
Theorem find_remove_same key m :
  Reachable m -> find key (remove key m) = emptySet.
Proof.
  intros Hm. apply find_remove_same_ascending.
  by apply (Reachable_keys_ascending MapCompare SetCompare).
Qed.

(** Erasing the head entry is not seen from a key not equivalent to it. *)
Lemma find_skip_head key' e m :
  keys_ascending (e :: m) -> equiv MapCompare e.1 key' = false ->
  find key' (e :: m) = find key' m.
Proof.
  unfold keys_ascending. intros Hm Hne.
  inversion Hm as [|? ? Hm' He]; subst. rewrite find_cons.
  destruct (MapCompare e.1 key') eqn:H1; [done|].
  destruct (MapCompare key' e.1) eqn:H2.
  - symmetry. apply find_all_above.
    eapply Forall_impl; [exact He|]. intros e' He'. simpl in He'.
    by apply (comp_trans MapCompare key' e.1 e'.1).
  - unfold equiv in Hne. by rewrite H1, H2 in Hne.
Qed.

Lemma equiv_head_other key key' e :
  MapCompare e.1 key = false -> MapCompare key e.1 = false ->
  equiv MapCompare key key' = false -> equiv MapCompare e.1 key' = false.
Proof.
  intros Hek Hke Hne.
  destruct (equiv MapCompare e.1 key') eqn:Heq; [|done].
  pose proof (not_below_not_above_equiv _ _ Hke Hek) as Hq.
  by rewrite (equiv_trans MapCompare _ _ _ Hq Heq) in Hne.
Qed.

Lemma find_remove_other_ascending key key' m :
  keys_ascending m -> equiv MapCompare key key' = false ->
  find key' (remove key m) = find key' m.
Proof.
  unfold keys_ascending. intros Hm Hne.
  induction m as [|e m IH]; [done|].
  pose proof Hm as Hm0.
  inversion Hm as [|? ? Hm' He]; subst. rewrite remove_cons.
  destruct (MapCompare e.1 key) eqn:Hek.
  { by rewrite !(find_cons MapCompare key'), IH. }
  destruct (MapCompare key e.1) eqn:Hke; [done|].
  symmetry. apply find_skip_head; [done|].
  by apply (equiv_head_other key).
Qed.

(** X4. [remove(k)] leaves what [find] returns for every key that is not
    equivalent to [k] as it was. *)
Theorem find_remove_other key key' m :
  Reachable m -> equiv MapCompare key key' = false ->
  find key' (remove key m) = find key' m.
Proof.
  intros Hm. apply find_remove_other_ascending.
  by apply (Reachable_keys_ascending MapCompare SetCompare).
Qed.

Lemma set_empty_true s : set_empty s = true -> s = [].
Proof. by destruct s. Qed.

Lemma find_remove_value_same_ascending key value m :
  keys_ascending m ->
  find key (remove_value key value m) =
  set_erase SetCompare value (find key m).
Proof.
  unfold keys_ascending.
  induction m as [|e m IH]; intros Hm; [done|].
  inversion Hm as [|? ? Hm' He]; subst.
  rewrite remove_value_cons, (find_cons MapCompare key e m).
  destruct (MapCompare e.1 key) eqn:Hek.
  { rewrite find_cons, Hek. auto. }
  destruct (MapCompare key e.1) eqn:Hke.
  - by rewrite find_cons, Hek, Hke.
  - destruct (set_empty _) eqn:Hempty.
    + rewrite (set_empty_true _ Hempty).
      apply find_all_above. by apply (equiv_head_all_above key e).
    + rewrite find_cons. simpl. by rewrite Hek, Hke.
Qed.

(** X5. After [remove(k, v)], [find(k)] is the set that [find(k)] returned
    before with [v] erased; that also holds when the entry is erased because
    its set drained. *)
Theorem find_remove_value_same key value m :
  Reachable m ->
  find key (remove_value key value m) =
  set_erase SetCompare value (find key m).
Proof.
  intros Hm. apply find_remove_value_same_ascending.
  by apply (Reachable_keys_ascending MapCompare SetCompare).
Qed.

Lemma find_remove_value_other_ascending key value key' m :
  keys_ascending m -> equiv MapCompare key key' = false ->
  find key' (remove_value key value m) = find key' m.
Proof.
  unfold keys_ascending. intros Hm Hne.
  induction m as [|e m IH]; [done|].
  pose proof Hm as Hm0.
  inversion Hm as [|? ? Hm' He]; subst. rewrite remove_value_cons.
  destruct (MapCompare e.1 key) eqn:Hek.
  { by rewrite !(find_cons MapCompare key'), IH. }
  destruct (MapCompare key e.1) eqn:Hke; [done|].
  pose proof (equiv_head_other key key' e Hek Hke Hne) as Hne'.
  destruct (set_empty _).
  - symmetry. by apply find_skip_head.
  - rewrite !(find_cons MapCompare key'). simpl.
    destruct (MapCompare e.1 key') eqn:H1; [done|].
    destruct (MapCompare key' e.1) eqn:H2; [done|].
    unfold equiv in Hne'. by rewrite H1, H2 in Hne'.
Qed.

(** X6. [remove(k, v)] leaves what [find] returns for every key that is
    not equivalent to [k] as it was. *)
Theorem find_remove_value_other key value key' m :
  Reachable m -> equiv MapCompare key key' = false ->
  find key' (remove_value key value m) = find key' m.
Proof.
  intros Hm. apply find_remove_value_other_ascending.
  by apply (Reachable_keys_ascending MapCompare SetCompare).
Qed.

End FindAfter.

(** ** How the mutating calls compose *)

Section Composition.
Context {Key Value : Type}.
Variable MapCompare : Key -> Key -> bool.
Variable SetCompare : Value -> Value -> bool.
Context `{!StrictWeakOrder MapCompare} `{!StrictWeakOrder SetCompare}.
Implicit Types (m : MultiSetMap Key Value) (e : Entry Key Value).
Implicit Types (s : ValueSet Value).

Local Abbreviation add := (add MapCompare SetCompare).
Local Abbreviation remove := (remove MapCompare).
Local Abbreviation remove_value := (remove_value MapCompare SetCompare).
Local Abbreviation find := (find MapCompare).
Local Abbreviation Reachable := (Reachable MapCompare SetCompare).
Local Abbreviation keys_ascending := (keys_ascending MapCompare).
Local Abbreviation values_ascending := (values_ascending SetCompare).
Local Abbreviation key_absent := (key_absent MapCompare).
Local Abbreviation value_absent := (value_absent SetCompare).

Lemma set_erase_insert value s :
  value_absent value s ->
  set_erase SetCompare value (set_insert SetCompare value s) = s.
Proof.
  induction s as [|x s IH]; intros Habs.
  - rewrite set_insert_nil, set_erase_cons.
    by rewrite (comp_irrefl SetCompare).
  - inversion Habs as [|? ? Hx Habs']; subst. rewrite set_insert_cons.
    destruct (SetCompare x value) eqn:Hxv.
    { by rewrite set_erase_cons, Hxv, IH. }
    destruct (SetCompare value x) eqn:Hvx.
    + by rewrite set_erase_cons, (comp_irrefl SetCompare).
    + unfold equiv in Hx. by rewrite Hxv, Hvx in Hx.
Qed.

Lemma remove_value_add_no_empty key value m :
  no_empty_entries m -> value_absent value (find key m) ->
  remove_value key value (add key value m) = m.
Proof.
  unfold no_empty_entries.
  induction m as [|e m IH]; intros Hne Habs.
  - rewrite add_nil, remove_value_cons. simpl.
    rewrite (comp_irrefl MapCompare), set_erase_cons.
    by rewrite (comp_irrefl SetCompare).
  - inversion Hne as [|? ? He Hne']; subst.
    rewrite find_cons in Habs. rewrite add_cons.
    destruct (MapCompare e.1 key) eqn:Hek.
    { by rewrite remove_value_cons, Hek, IH. }
    destruct (MapCompare key e.1) eqn:Hke.
    + rewrite remove_value_cons. simpl.
      rewrite (comp_irrefl MapCompare), set_erase_cons.
      by rewrite (comp_irrefl SetCompare).
    + rewrite remove_value_cons. simpl.
      rewrite Hek, Hke, (set_erase_insert _ _ Habs).
      by destruct e as [k [|x s]].
Qed.

(** X7. Adding a value that the set of the key does not hold and removing
    it again gives back the container as it was, also when the key was
    absent and the entry only existed in between. *)
Theorem remove_value_add_round_trip key value m :
  Reachable m -> value_absent value (find key m) ->
  remove_value key value (add key value m) = m.
Proof.
  intros Hm. apply remove_value_add_no_empty.
  by apply (Reachable_no_empty MapCompare SetCompare).
Qed.

(** X8. [remove(k)] right after [add(k, v)] leaves the container that
    [remove(k)] alone would have left. *)
Theorem remove_add key value m :
  remove key (add key value m) = remove key m.
Proof.
  induction m as [|e m IH].
  - rewrite add_nil, remove_cons. simpl.
    by rewrite (comp_irrefl MapCompare).
  - rewrite add_cons, (remove_cons MapCompare key e m).
    destruct (MapCompare e.1 key) eqn:Hek.
    { by rewrite remove_cons, Hek, IH. }
    destruct (MapCompare key e.1) eqn:Hke; rewrite remove_cons; simpl.
    + by rewrite (comp_irrefl MapCompare).
    + by rewrite Hek, Hke.
Qed.

(** X20. When erasing [v] drains the set that [find(k)] returns,
    [remove(k, v)] does what [remove(k)] does. *)
Theorem remove_value_drain_is_remove key value m :
  set_erase SetCompare value (find key m) = [] ->
  remove_value key value m = remove key m.
Proof.
  induction m as [|e m IH]; intros Hdrain; [done|].
  rewrite find_cons in Hdrain. rewrite remove_value_cons, remove_cons.
  destruct (MapCompare e.1 key); [by rewrite IH|].
  destruct (MapCompare key e.1); [done|]. by rewrite Hdrain.
Qed.

Lemma remove_key_absent_ascending key m :
  keys_ascending m -> key_absent key (remove key m).
Proof.
  unfold keys_ascending, key_absent.
  induction m as [|e m IH]; intros Hm; [constructor|].
  inversion Hm as [|? ? Hm' He]; subst. rewrite remove_cons.
  destruct (MapCompare e.1 key) eqn:Hek.
  { constructor; [|auto]. by apply (below_not_equiv MapCompare fst). }
  pose proof (ascending_tail_absent MapCompare fst key e m Hek He) as Habs.
  destruct (MapCompare key e.1) eqn:Hke; [|done].
  constructor; [|done]. unfold equiv. by rewrite Hke.
Qed.

(** X9. After [remove(k)] no entry has a key equivalent to [k], and a
    second [remove(k)] changes nothing. *)
Theorem remove_then_absent key m :
  Reachable m ->
  key_absent key (remove key m) /\
  remove key (remove key m) = remove key m.
Proof.
  intros Hm.
  assert (key_absent key (remove key m)) as Habs.
  { apply remove_key_absent_ascending.
    by apply (Reachable_keys_ascending MapCompare SetCompare). }
  split; [done|]. by apply remove_absent.
Qed.

Lemma set_erase_value_absent value s :
  values_ascending s -> value_absent value (set_erase SetCompare value s).
Proof.
  unfold values_ascending, value_absent.
  induction s as [|x s IH]; intros Hs; [constructor|].
  inversion Hs as [|? ? Hs' Hx]; subst. rewrite set_erase_cons.
  destruct (SetCompare x value) eqn:Hxv.
  { constructor; [|auto]. by apply (below_not_equiv SetCompare id). }
  pose proof (ascending_tail_absent SetCompare id value x s Hxv Hx) as Habs.
  destruct (SetCompare value x) eqn:Hvx; [|done].
  constructor; [|done]. unfold equiv. by rewrite Hvx.
Qed.

Lemma find_Forall (P : ValueSet Value -> Prop) key m :
  P emptySet -> Forall (fun e => P e.2) m -> P (find key m).
Proof.
  intros Hnil. induction 1 as [|e m He Hm IH]; [done|].
  rewrite find_cons. destruct (MapCompare e.1 key); [done|].
  by destruct (MapCompare key e.1).
Qed.

(** X10. After [remove(k, v)] the set that [find(k)] returns holds no
    element equivalent to [v]. *)
Theorem remove_value_then_absent key value m :
  Reachable m -> value_absent value (find key (remove_value key value m)).
Proof.
  intros Hm.
  rewrite (find_remove_value_same_ascending MapCompare SetCompare).
  - apply set_erase_value_absent.
    apply (find_Forall values_ascending); [constructor|].
    by apply (Reachable_values_ascending MapCompare SetCompare).
  - by apply (Reachable_keys_ascending MapCompare SetCompare).
Qed.

Lemma ascending_keys_unique m e1 e2 :
  keys_ascending m -> In e1 m -> In e2 m ->
  equiv MapCompare e1.1 e2.1 = true -> e1 = e2.
Proof.
  unfold keys_ascending.
  induction 1 as [|e m Hm IH He]; intros H1 H2 Heq; [done|].
  rewrite List.Forall_forall in He.
  destruct H1 as [->|H1], H2 as [->|H2]; [done| | |auto].
  - by rewrite (comp_not_equiv MapCompare _ _ (He _ H2)) in Heq.
  - rewrite (equiv_sym MapCompare) in Heq.
    by rewrite (comp_not_equiv MapCompare _ _ (He _ H1)) in Heq.
Qed.

(** X11. In every reachable state the keys are strictly ascending for
    [MapCompare], no two entries have equivalent keys, and every set, so also
    every set that [find] returns, is strictly ascending for [SetCompare]. *)
Theorem reachable_ordered_unique m :
  Reachable m ->
  keys_ascending m /\
  (forall e1 e2, In e1 m -> In e2 m ->
                 equiv MapCompare e1.1 e2.1 = true -> e1 = e2) /\
  Forall (fun e => values_ascending e.2) m /\
  (forall key, values_ascending (find key m)).
Proof.
  intros Hm.
  pose proof (Reachable_keys_ascending MapCompare SetCompare m Hm) as Hk.
  pose proof (Reachable_values_ascending MapCompare SetCompare m Hm) as Hv.
  split; [done|]. split; [|split; [done|]].
  - intros e1 e2. by apply ascending_keys_unique.
  - intros key. apply (find_Forall values_ascending); [constructor|done].
Qed.

End Composition.

(** ** The order of insertions *)

Section InsertionOrder.
Context {Key Value : Type}.
Variable MapCompare : Key -> Key -> bool.
Variable SetCompare : Value -> Value -> bool.
Context `{!StrictWeakOrder MapCompare} `{!StrictWeakOrder SetCompare}.
Implicit Types (m : MultiSetMap Key Value) (e : Entry Key Value).
Implicit Types (s : ValueSet Value).

Local Abbreviation add := (add MapCompare SetCompare).
Local Abbreviation set_insert := (set_insert SetCompare).

Lemma set_insert_comm_below a b s :
  SetCompare a b = true ->
  set_insert a (set_insert b s) = set_insert b (set_insert a s).
Proof.
  intros Hab. pose proof (comp_asym SetCompare _ _ Hab) as Hba.
  induction s as [|x s IH].
  - rewrite !set_insert_nil, !set_insert_cons, set_insert_nil.
    by rewrite Hab, Hba.
  - rewrite (set_insert_cons SetCompare a x s).
    destruct (SetCompare x a) eqn:Hxa.
    { pose proof (comp_trans SetCompare _ _ _ Hxa Hab) as Hxb.
      rewrite (set_insert_cons SetCompare b x s), Hxb.
      by rewrite !set_insert_cons, Hxa, Hxb, IH. }
    destruct (SetCompare a x) eqn:Hax.
    + rewrite (set_insert_cons SetCompare b a), Hab.
      rewrite (set_insert_cons SetCompare b x s).
      destruct (SetCompare x b); [|destruct (SetCompare b x)];
        rewrite set_insert_cons; by rewrite ?Hxa, ?Hax, ?Hba, ?Hab.
    + assert (SetCompare x b = true) as Hxb.
      { apply (comp_equiv_l SetCompare x a b); [|done].
        unfold equiv. by rewrite Hxa, Hax. }
      by rewrite !set_insert_cons, Hxb, set_insert_cons, Hxa, Hax.
Qed.

Lemma set_insert_comm a b s :
  equiv SetCompare a b = false ->
  set_insert a (set_insert b s) = set_insert b (set_insert a s).
Proof.
  intros Hne.
  destruct (SetCompare a b) eqn:Hab; [by apply set_insert_comm_below|].
  destruct (SetCompare b a) eqn:Hba.
  - symmetry. by apply set_insert_comm_below.
  - unfold equiv in Hne. by rewrite Hab, Hba in Hne.
Qed.

Lemma add_comm_below k1 v1 k2 v2 m :
  MapCompare k1 k2 = true ->
  add k1 v1 (add k2 v2 m) = add k2 v2 (add k1 v1 m).
Proof.
  intros H12. pose proof (comp_asym MapCompare _ _ H12) as H21.
  induction m as [|e m IH].
  - rewrite !add_nil, !add_cons, add_nil. simpl. by rewrite H12, H21.
  - rewrite (add_cons MapCompare SetCompare k1 v1 e m).
    destruct (MapCompare e.1 k1) eqn:He1.
    { pose proof (comp_trans MapCompare _ _ _ He1 H12) as He2.
      rewrite (add_cons MapCompare SetCompare k2 v2 e m), He2.
      by rewrite !add_cons, He1, He2, IH. }
    destruct (MapCompare k1 e.1) eqn:H1e.
    + rewrite (add_cons MapCompare SetCompare k2 v2 (k1, [v1])). simpl.
      rewrite H12. rewrite (add_cons MapCompare SetCompare k2 v2 e m).
      destruct (MapCompare e.1 k2); [|destruct (MapCompare k2 e.1)];
        rewrite add_cons; simpl; by rewrite ?He1, ?H1e, ?H21, ?H12.
    + assert (MapCompare e.1 k2 = true) as He2.
      { apply (comp_equiv_l MapCompare e.1 k1 k2); [|done].
        unfold equiv. by rewrite He1, H1e. }
      rewrite (add_cons MapCompare SetCompare k2 v2 e m), He2.
      rewrite (add_cons MapCompare SetCompare k1 v1 e), He1, H1e.
      rewrite add_cons. simpl. by rewrite He2.
Qed.

Lemma add_comm_same_key key v1 v2 m :
  equiv SetCompare v1 v2 = false ->
  add key v1 (add key v2 m) = add key v2 (add key v1 m).
Proof.
  intros Hne. induction m as [|e m IH].
  - rewrite !add_nil, !add_cons. simpl.
    rewrite (comp_irrefl MapCompare).
    f_equal. f_equal.
    by rewrite <- !(set_insert_nil SetCompare), set_insert_comm.
  - rewrite !(add_cons MapCompare SetCompare key _ e m).
    destruct (MapCompare e.1 key) eqn:Hek.
    { by rewrite !add_cons, Hek, IH. }
    destruct (MapCompare key e.1) eqn:Hke; rewrite !add_cons; simpl.
    + rewrite (comp_irrefl MapCompare). f_equal. f_equal.
      by rewrite <- !(set_insert_nil SetCompare), set_insert_comm.
    + rewrite Hek, Hke. f_equal. f_equal. by apply set_insert_comm.
Qed.

(** X12. Two [add] calls give the same container in either order when
    their keys are not equivalent, and also when they have the same key and
    values that are not equivalent. *)
Theorem add_commutes k1 v1 k2 v2 m :
  equiv MapCompare k1 k2 = false \/
  (k1 = k2 /\ equiv SetCompare v1 v2 = false) ->
  add k1 v1 (add k2 v2 m) = add k2 v2 (add k1 v1 m).
Proof.
  intros [Hne|[-> Hne]]; [|by apply add_comm_same_key].
  destruct (MapCompare k1 k2) eqn:H12; [by apply add_comm_below|].
  destruct (MapCompare k2 k1) eqn:H21.
  - symmetry. by apply add_comm_below.
  - unfold equiv in Hne. by rewrite H12, H21 in Hne.
Qed.

End InsertionOrder.

(** ** Subsequences *)

Lemma sublist_Forall {A} (P : A -> Prop) (l1 l2 : list A) :
  l1 `sublist_of` l2 -> Forall P l2 -> Forall P l1.
Proof.
  induction 1 as [|x l1 l2 _ IH|x l1 l2 _ IH]; intros Hall; [done| |].
  - inversion Hall; subst. constructor; auto.
  - inversion Hall; subst. auto.
Qed.

Lemma sublist_In {A} (l1 l2 : list A) (x : A) :
  l1 `sublist_of` l2 -> In x l1 -> In x l2.
Proof.
  induction 1 as [|y l1 l2 _ IH|y l1 l2 _ IH]; simpl; [done| |]; tauto.
Qed.

(** ** What [findByPrefix] returns, for every key type *)

Section PrefixResults.
Context {Key Value : Type}.
Variable MapCompare : Key -> Key -> bool.
Variable SetCompare : Value -> Value -> bool.
Context `{!StrictWeakOrder MapCompare}.
Variable starts_with : Key -> Key -> bool.
Variable Key_is_string : bool.
Variable to_lower : Key -> Key.
Implicit Types (m l : list (Entry Key Value)) (e : Entry Key Value).

Local Abbreviation findByPrefix :=
  (findByPrefix (Value := Value) MapCompare starts_with Key_is_string to_lower).
Local Abbreviation scan_while := (scan_while (Value := Value) starts_with).
Local Abbreviation scan_all := (scan_all (Value := Value) starts_with to_lower).
Local Abbreviation Reachable := (Reachable MapCompare SetCompare).
Local Abbreviation keys_ascending := (keys_ascending MapCompare).

Lemma scan_while_sublist prefix l : scan_while prefix l `sublist_of` l.
Proof.
  induction l as [|[k s] l IH]; simpl; [constructor|].
  destruct (starts_with k prefix); [by constructor|apply sublist_nil_l].
Qed.

Lemma scan_all_sublist prefix l : scan_all prefix l `sublist_of` l.
Proof.
  induction l as [|[k s] l IH]; simpl; [constructor|].
  destruct (starts_with (to_lower k) (to_lower prefix)); by constructor.
Qed.

Lemma scan_while_pass prefix l :
  Forall (fun e => starts_with e.1 prefix = true) (scan_while prefix l).
Proof.
  induction l as [|[k s] l IH]; simpl; [constructor|].
  destruct (starts_with k prefix) eqn:Hsw; by constructor.
Qed.

Lemma scan_all_pass prefix l :
  Forall (fun e => starts_with (to_lower e.1) (to_lower prefix) = true)
    (scan_all prefix l).
Proof.
  induction l as [|[k s] l IH]; simpl; [constructor|].
  destruct (starts_with (to_lower k) (to_lower prefix)) eqn:Hsw;
    [by constructor|done].
Qed.

Lemma findByPrefix_sublist prefix caseSensitive m :
  findByPrefix prefix caseSensitive m `sublist_of` m.
Proof.
  unfold findByPrefix. destruct caseSensitive.
  - etrans; [apply scan_while_sublist|apply sublist_drop].
  - destruct Key_is_string; [apply scan_all_sublist|apply sublist_nil_l].
Qed.

(** X13. For every comparator and every key type, what [findByPrefix]
    returns is a subsequence of the container's entries (nothing made up,
    nothing repeated, order kept), and each of them passes the test of the
    branch taken: its key starts with the prefix, or does so after both are
    folded to lower case. *)
Theorem findByPrefix_sound prefix caseSensitive m :
  findByPrefix prefix caseSensitive m `sublist_of` m /\
  Forall (fun e =>
            if caseSensitive then starts_with e.1 prefix = true
            else starts_with (to_lower e.1) (to_lower prefix) = true)
    (findByPrefix prefix caseSensitive m).
Proof.
  split; [apply findByPrefix_sublist|].
  unfold findByPrefix. destruct caseSensitive.
  - apply scan_while_pass.
  - destruct Key_is_string; [apply scan_all_pass|constructor].
Qed.

(** X14. On a reachable container every pair that [findByPrefix] returns
    carries the set that [find] returns for its key. *)
Theorem findByPrefix_agrees_with_find prefix caseSensitive m :
  Reachable m ->
  Forall (fun e => find MapCompare e.1 m = e.2)
    (findByPrefix prefix caseSensitive m).
Proof.
  intros Hm.
  apply (Reachable_keys_ascending MapCompare SetCompare) in Hm.
  apply (sublist_Forall _ _ m); [apply findByPrefix_sublist|].
  apply List.Forall_forall. intros e He.
  apply (find_present MapCompare); [done|done|].
  apply (equiv_refl MapCompare).
Qed.

(** X15. After [remove(k)] on a reachable container, [findByPrefix]
    returns no entry with a key equivalent to [k], in either mode. *)
Theorem findByPrefix_after_remove key prefix caseSensitive m :
  Reachable m ->
  Forall (fun e => equiv MapCompare key e.1 = false)
    (findByPrefix prefix caseSensitive (remove MapCompare key m)).
Proof.
  intros Hm.
  apply (Reachable_keys_ascending MapCompare SetCompare) in Hm.
  apply (sublist_Forall _ _ (remove MapCompare key m));
    [apply findByPrefix_sublist|].
  by apply (remove_key_absent_ascending MapCompare).
Qed.

(** The contract on [MapCompare] that the case-sensitive branch relies
    on: a key that starts with [p] is not below [p], and once a key not below
    [p] fails to start with [p], so does every key above it. *)
Hypothesis starts_with_not_below : forall k p,
  starts_with k p = true -> MapCompare k p = false.
Hypothesis starts_with_interval : forall k k' p,
  MapCompare k p = false -> starts_with k p = false ->
  MapCompare k k' = true -> starts_with k' p = false.

(** X16. For every key type whose comparator keeps that contract, the
    case-sensitive [findByPrefix] on a reachable container returns exactly
    the entries whose key starts with the prefix, in ascending key order. *)
Theorem findByPrefix_complete_under_contract prefix m :
  Reachable m ->
  findByPrefix prefix true m =
    List.filter (fun e => starts_with e.1 prefix) m /\
  keys_ascending (findByPrefix prefix true m).
Proof.
  intros Hm.
  apply (Reachable_keys_ascending MapCompare SetCompare) in Hm.
  assert (findByPrefix prefix true m =
          List.filter (fun e => starts_with e.1 prefix) m) as Heq.
  { by apply findByPrefix_sensitive_filter. }
  split; [done|]. rewrite Heq. by apply filter_keys_ascending.
Qed.
End PrefixResults.

(** ** More on prefix search over [std::string] keys *)

Section StdStringMore.
Context {Value : Type}.
Variable SetCompare : Value -> Value -> bool.
Context `{!StrictWeakOrder SetCompare}.
Implicit Types (m : MultiSetMap string Value) (e : Entry string Value).

Local Abbreviation Reachable := (Reachable StdString.less SetCompare).
Local Abbreviation add := (add StdString.less SetCompare).

Lemma starts_with_tolower p : forall s,
  StdString.starts_with s p = true ->
  StdString.starts_with (StdString.transform_tolower s)
    (StdString.transform_tolower p) = true.
Proof.
  unfold StdString.starts_with.
  induction p as [|c p IH]; intros [|a s]; simpl; try done.
  destruct (ascii_dec c a) as [->|]; [|done].
  destruct (ascii_dec _ _); [apply IH|done].
Qed.

Lemma scan_all_prefix_lower (p p' : string) m :
  StdString.transform_tolower p = StdString.transform_tolower p' ->
  scan_all StdString.starts_with StdString.transform_tolower p m =
  scan_all StdString.starts_with StdString.transform_tolower p' m.
Proof.
  intros Heq. induction m as [|e m IH]; simpl; [done|].
  by rewrite Heq, IH.
Qed.

(** X17. Every entry that the case-sensitive search returns for a prefix
    is also returned by the case-insensitive search for it. *)
Theorem findByPrefix_sensitive_in_insensitive prefix m e :
  In e (StdString.findByPrefix prefix true m) ->
  In e (StdString.findByPrefix prefix false m).
Proof.
  intros He. unfold StdString.findByPrefix, findByPrefix.
  rewrite scan_all_filter. apply List.filter_In. split.
  - eapply sublist_In; [|exact He]. apply findByPrefix_sublist.
  - apply starts_with_tolower.
    pose proof (scan_while_pass (Value := Value) StdString.starts_with prefix
                  (drop (map_lower_bound StdString.less prefix m) m)) as Hall.
    rewrite List.Forall_forall in Hall. by apply Hall.
Qed.

(** X18. The case-insensitive search does not see the case of the
    prefix: two prefixes with the same lower-case form give the same
    result. *)
Theorem findByPrefix_insensitive_prefix_case (p p' : string) m :
  StdString.transform_tolower p = StdString.transform_tolower p' ->
  StdString.findByPrefix p false m = StdString.findByPrefix p' false m.
Proof.
  intros Heq. unfold StdString.findByPrefix, findByPrefix.
  by apply scan_all_prefix_lower.
Qed.

(** X19. Right after [add(k, v)] on a reachable container, a prefix
    search that [k] matches returns the entry of [k], with the set that
    [find(k)] returned before with [v] inserted. *)
Theorem findByPrefix_after_add (key prefix : string) (value : Value)
    (caseSensitive : bool) m :
  Reachable m ->
  (if caseSensitive then StdString.starts_with key prefix
   else StdString.starts_with (StdString.transform_tolower key)
          (StdString.transform_tolower prefix)) = true ->
  In (key, set_insert SetCompare value (find StdString.less key m))
    (StdString.findByPrefix prefix caseSensitive (add key value m)).
Proof.
  intros Hm Hmatch.
  apply (Reachable_keys_ascending StdString.less SetCompare) in Hm.
  pose proof (add_keys_ascending StdString.less SetCompare key value m Hm)
    as Hasc.
  destruct (add_entry_In StdString.less SetCompare key value m)
    as ([k s] & Hin & Heq & Hset).
  apply less_equiv_eq in Heq. simpl in Heq, Hset. subst k.
  rewrite find_add_set_insert in Hset; [|apply _]. subst s.
  destruct caseSensitive.
  - unfold StdString.findByPrefix.
    rewrite (findByPrefix_sensitive_filter StdString.less); [| | |done].
    + apply List.filter_In. by split.
    + intros k p. apply starts_with_not_less.
    + intros k k' p. apply starts_with_stops.
  - unfold StdString.findByPrefix, findByPrefix. rewrite scan_all_filter.
    apply List.filter_In. by split.
Qed.

End StdStringMore.

(** ** The further properties at sample containers *)

Section MoreSamples.
Import Sample.
Local Open Scope string_scope.

Local Abbreviation less := StdString.less.

Lemma find_add_same_witness :
  StrictWeakOrder less /\
  find less "apple" (add less less "apple" "yellow" word_map) =
  set_insert less "yellow" (find less "apple" word_map).
Proof. split; [apply _|]. apply (find_add_same less less). Defined.

Lemma find_add_other_witness :
  equiv less "apple" "apply" = false /\
  find less "apply" (add less less "apple" "yellow" word_map) =
  find less "apply" word_map.
Proof.
  split; [reflexivity|]. apply (find_add_other less less). reflexivity.
Defined.

Lemma find_remove_same_witness :
  Reachable less less word_map /\
  find less "apple" (remove less "apple" word_map) = emptySet.
Proof.
  split; [exact word_map_Reachable|].
  apply (find_remove_same less less "apple" word_map word_map_Reachable).
Defined.

Lemma find_remove_other_witness :
  Reachable less less word_map /\ equiv less "apple" "banana" = false /\
  find less "banana" (remove less "apple" word_map) =
  find less "banana" word_map.
Proof.
  split; [exact word_map_Reachable|]. split; [reflexivity|].
  apply (find_remove_other less less "apple" "banana" word_map
           word_map_Reachable).
  reflexivity.
Defined.

Lemma find_remove_value_same_witness :
  Reachable less less word_map /\
  find less "apple" (remove_value less less "apple" "red" word_map) =
  set_erase less "red" (find less "apple" word_map).
Proof.
  split; [exact word_map_Reachable|].
  apply (find_remove_value_same less less "apple" "red" word_map
           word_map_Reachable).
Defined.

Lemma find_remove_value_other_witness :
  Reachable less less word_map /\ equiv less "apply" "apple" = false /\
  find less "apple" (remove_value less less "apply" "verb" word_map) =
  find less "apple" word_map.
Proof.
  split; [exact word_map_Reachable|]. split; [reflexivity|].
  apply (find_remove_value_other less less "apply" "verb" "apple" word_map
           word_map_Reachable).
  reflexivity.
Defined.

Lemma remove_value_add_round_trip_witness :
  Reachable less less word_map /\
  value_absent less "blue" (find less "apple" word_map) /\
  remove_value less less "apple" "blue" (add less less "apple" "blue" word_map)
  = word_map.
Proof.
  assert (value_absent less "blue" (find less "apple" word_map)) as Habs.
  { repeat constructor. }
  split; [exact word_map_Reachable|]. split; [exact Habs|].
  apply (remove_value_add_round_trip less less "apple" "blue" word_map
           word_map_Reachable Habs).
Defined.

Lemma remove_add_witness :
  StrictWeakOrder less /\
  remove less "pear" (add less less "pear" "green" word_map) =
  remove less "pear" word_map.
Proof. split; [apply _|]. apply (remove_add less less). Defined.

Lemma remove_then_absent_witness :
  Reachable less less word_map /\
  key_absent less "apple" (remove less "apple" word_map) /\
  remove less "apple" (remove less "apple" word_map) =
  remove less "apple" word_map.
Proof.
  split; [exact word_map_Reachable|].
  apply (remove_then_absent less less "apple" word_map word_map_Reachable).
Defined.

Lemma remove_value_then_absent_witness :
  Reachable less less word_map /\
  value_absent less "red"
    (find less "apple" (remove_value less less "apple" "red" word_map)).
Proof.
  split; [exact word_map_Reachable|].
  apply (remove_value_then_absent less less "apple" "red" word_map
           word_map_Reachable).
Defined.

Lemma remove_value_drain_is_remove_witness :
  set_erase less "verb" (find less "apply" word_map) = [] /\
  remove_value less less "apply" "verb" word_map = remove less "apply" word_map.
Proof.
  split; [reflexivity|].
  apply (remove_value_drain_is_remove less less). reflexivity.
Defined.

Lemma reachable_ordered_unique_witness :
  Reachable less less word_map /\ keys_ascending less word_map /\
  forall key, values_ascending less (find less key word_map).
Proof.
  split; [exact word_map_Reachable|].
  destruct (reachable_ordered_unique less less word_map word_map_Reachable)
    as (Hk & _ & _ & Hv).
  by split.
Defined.

Lemma add_commutes_witness :
  equiv less "pear" "fig" = false /\
  add less less "pear" "green" (add less less "fig" "purple" word_map) =
  add less less "fig" "purple" (add less less "pear" "green" word_map).
Proof.
  split; [reflexivity|].
  apply (add_commutes less less). left. reflexivity.
Defined.

Lemma findByPrefix_agrees_with_find_witness :
  Reachable less less word_map /\
  Forall (fun e => find less e.1 word_map = e.2)
    (StdString.findByPrefix "app" true word_map).
Proof.
  split; [exact word_map_Reachable|].
  apply (findByPrefix_agrees_with_find less less StdString.starts_with true
           StdString.transform_tolower "app" true word_map word_map_Reachable).
Defined.

Lemma findByPrefix_after_remove_witness :
  Reachable less less word_map /\
  Forall (fun e => equiv less "apple" e.1 = false)
    (StdString.findByPrefix "app" true (remove less "apple" word_map)).
Proof.
  split; [exact word_map_Reachable|].
  apply (findByPrefix_after_remove less less StdString.starts_with true
           StdString.transform_tolower "apple" "app" true word_map
           word_map_Reachable).
Defined.

Lemma findByPrefix_complete_under_contract_witness :
  Reachable less less word_map /\
  StdString.findByPrefix "app" true word_map =
  List.filter (fun e => StdString.starts_with e.1 "app") word_map.
Proof.
  split; [exact word_map_Reachable|].
  apply (findByPrefix_complete_under_contract less less
           StdString.starts_with true StdString.transform_tolower
           (fun k p => starts_with_not_less p k)
           (fun k k' p => starts_with_stops p k k')
           "app" word_map word_map_Reachable).
Defined.

Lemma findByPrefix_sensitive_in_insensitive_witness :
  In ("Apple", ["1"]) (StdString.findByPrefix "Ap" true mixed_case_map) /\
  In ("Apple", ["1"]) (StdString.findByPrefix "Ap" false mixed_case_map).
Proof.
  assert (In ("Apple", ["1"]) (StdString.findByPrefix "Ap" true mixed_case_map))
    as Hin.
  { simpl. tauto. }
  split; [exact Hin|].
  apply (findByPrefix_sensitive_in_insensitive "Ap" mixed_case_map _ Hin).
Defined.

Lemma findByPrefix_insensitive_prefix_case_witness :
  StdString.transform_tolower "APP" = StdString.transform_tolower "app" /\
  StdString.findByPrefix "APP" false mixed_case_map =
  StdString.findByPrefix "app" false mixed_case_map.
Proof.
  split; [reflexivity|].
  apply (findByPrefix_insensitive_prefix_case "APP" "app"). reflexivity.
Defined.

Lemma findByPrefix_after_add_witness :
  Reachable less less mixed_case_map /\
  In ("APPLE", set_insert less "5" (find less "APPLE" mixed_case_map))
    (StdString.findByPrefix "app" false
       (add less less "APPLE" "5" mixed_case_map)).
Proof.
  split; [exact mixed_case_map_Reachable|].
  apply (findByPrefix_after_add less "APPLE" "app" "5" false mixed_case_map
           mixed_case_map_Reachable).
  reflexivity.
Defined.

End MoreSamples.
